(** * fin_analysis: triple decoding, causal filtering, graph upsert and
      graph building

    A shallow embedding of the hand-written logic of [visualizer.py] and
    [clustering.py], with the properties the specification states about it.

    Conventions of the embedding:
    - a Python [str] is a [string]; a character is a code point below 256
      (the Latin-1 range), so [isspace] and [lower] are the restrictions of
      Python's to that range;
    - a Python [dict] whose order is irrelevant is a [gmap], a [set] whose
      order is irrelevant is a [gset];
    - code that may raise returns a [result]. *)

From Stdlib Require Import Ascii String.
From stdpp Require Import gmap strings list fin_maps.

Local Open Scope string_scope.
Local Open Scope list_scope.

#[local] Set Warnings "-clear-no-such-hyp".

(** ** Python string operations *)

Module PyStr.

(** [str.isspace] on one character: tab to carriage return, the four
    separators 0x1c-0x1f, the space, NEL (0x85) and the no-break space
    (0xa0). *)
Definition isspace (c : ascii) : bool :=
  let n := nat_of_ascii c in
  ((9 <=? n)%nat && (n <=? 13)%nat)
  || ((28 <=? n)%nat && (n <=? 32)%nat)
  || (n =? 133)%nat || (n =? 160)%nat.

Definition is_empty (s : string) : bool :=
  match s with EmptyString => true | String _ _ => false end.

Fixpoint lstrip (s : string) : string :=
  match s with
  | EmptyString => EmptyString
  | String c s' => if isspace c then lstrip s' else s
  end.

Fixpoint rstrip (s : string) : string :=
  match s with
  | EmptyString => EmptyString
  | String c s' =>
      let r := rstrip s' in
      if isspace c && is_empty r then EmptyString else String c r
  end.

(** [s.strip()] *)
Definition strip (s : string) : string := rstrip (lstrip s).

(** [s.split()]: maximal runs of non-space characters, in order.  [cur] is
    the run being read. *)
Fixpoint split_from (cur : string) (s : string) : list string :=
  match s with
  | EmptyString => if is_empty cur then [] else [cur]
  | String c s' =>
      if isspace c
      then (if is_empty cur then split_from EmptyString s'
            else cur :: split_from EmptyString s')
      else split_from (cur +:+ String c EmptyString) s'
  end.

Definition split (s : string) : list string := split_from EmptyString s.

(** [s.replace(old, new)] for a non-empty [old]: occurrences are found from
    the left and do not overlap.  [skip] counts the characters of a matched
    occurrence still to be dropped. *)
Fixpoint replace_from (old new : string) (skip : nat) (s : string) : string :=
  match s with
  | EmptyString => EmptyString
  | String c s' =>
      match skip with
      | S k => replace_from old new k s'
      | O =>
          if String.prefix old s
          then new +:+ replace_from old new (String.length old - 1) s'
          else String c (replace_from old new 0 s')
      end
  end.

Definition replace (old new : string) (s : string) : string :=
  replace_from old new 0 s.

(** [str.lower] on one character: A-Z and the Latin-1 capitals 0xc0-0xde
    (0xd7, the multiplication sign, apart) move up by 32. *)
Definition lower_char (c : ascii) : ascii :=
  let n := nat_of_ascii c in
  if ((65 <=? n)%nat && (n <=? 90)%nat)
     || ((192 <=? n)%nat && (n <=? 222)%nat && negb (n =? 215)%nat)
  then ascii_of_nat (n + 32) else c.

Fixpoint lower (s : string) : string :=
  match s with
  | EmptyString => EmptyString
  | String c s' => String (lower_char c) (lower s')
  end.

(** [k in s] *)
Fixpoint contains (k s : string) : bool :=
  String.prefix k s
  || match s with
     | EmptyString => false
     | String _ s' => contains k s'
     end.

(** [[s[i:i+n] for i in range(0, len(s), n)]]; [fuel] bounds the number of
    slices and [String.length s] is always enough. *)
Fixpoint slices_from (fuel n : nat) (s : string) : list string :=
  match fuel with
  | O => []
  | S fuel' =>
      if is_empty s then []
      else String.substring 0 n s
           :: slices_from fuel' n (String.substring n (String.length s - n) s)
  end.

Definition slices (n : nat) (s : string) : list string :=
  slices_from (String.length s) n s.

End PyStr.

(** ** Exceptions and results *)

Module Py.

(** The exceptions the modelled code can meet.  [BaseOnly] stands for the
    exceptions that derive from [BaseException] but not from [Exception]
    ([KeyboardInterrupt], [SystemExit], [GeneratorExit]); all the others
    are subclasses of [Exception]. *)
Inductive exn :=
| KeyError (key : string)
| TypeError
| ValueError
| OtherException (name : string)
| BaseOnly (name : string).

(** [isinstance(e, Exception)] *)
Definition is_Exception (e : exn) : bool :=
  match e with BaseOnly _ => false | _ => true end.

Inductive result (A : Type) :=
| Ok (a : A)
| Raise (e : exn).
Arguments Ok {A} a.
Arguments Raise {A} e.

#[global] Instance result_ret : MRet result := fun A a => Ok a.
#[global] Instance result_bind : MBind result := fun A B f m =>
  match m with Ok a => f a | Raise e => Raise e end.

Definition is_Ok {A} (r : result A) : bool :=
  match r with Ok _ => true | Raise _ => false end.

End Py.

(** ** The triple decoder: [Visualizer.extract_triplets] *)

Module Decoder.

(** One decoded triple, the dict [{'head': .., 'type': .., 'tail': ..}]. *)
Record triplet := Triplet { head : string; type : string; tail : string }.

#[global] Instance triplet_eq_dec : EqDecision triplet.
Proof. solve_decision. Defined.

(** The variable [current]: one of 'x', 't', 's', 'o'. *)
Inductive current_tag := cur_x | cur_t | cur_s | cur_o.

(** The local variables of the loop. *)
Record state := State {
  triplets : list triplet;
  relation : string;
  subject : string;
  object_ : string;
  current : current_tag
}.

Definition init : state := State [] "" "" "" cur_x.

(** The dict appended by each of the three [triplets.append] calls. *)
Definition pending (st : state) : triplet :=
  Triplet (PyStr.strip (subject st)) (PyStr.strip (relation st))
          (PyStr.strip (object_ st)).

(** One iteration of the [for token in ...] loop. *)
Definition step (st : state) (token : string) : state :=
  if String.eqb token "<triplet>" then
    if negb (PyStr.is_empty (relation st))
    then State (triplets st ++ [pending st]) "" "" (object_ st) cur_t
    else State (triplets st) (relation st) "" (object_ st) cur_t
  else if String.eqb token "<subj>" then
    if negb (PyStr.is_empty (relation st))
    then State (triplets st ++ [pending st]) (relation st) (subject st) "" cur_s
    else State (triplets st) (relation st) (subject st) "" cur_s
  else if String.eqb token "<obj>" then
    State (triplets st) "" (subject st) (object_ st) cur_o
  else
    match current st with
    | cur_t => State (triplets st) (relation st) (subject st +:+ " " +:+ token)
                     (object_ st) cur_t
    | cur_s => State (triplets st) (relation st) (subject st)
                     (object_ st +:+ " " +:+ token) cur_s
    | cur_o => State (triplets st) (relation st +:+ " " +:+ token) (subject st)
                     (object_ st) cur_o
    | cur_x => st
    end.

(** The three tokens the loop tests for. *)
Definition is_marker (token : string) : bool :=
  String.eqb token "<triplet>" || String.eqb token "<subj>"
  || String.eqb token "<obj>".

(** The whole loop. *)
Definition run (tokens : list string) (st : state) : state :=
  fold_left step tokens st.

(** The tokens the loop ranges over. *)
Definition tokens_of (text : string) : list string :=
  PyStr.split
    (PyStr.replace "</s>" ""
       (PyStr.replace "<pad>" ""
          (PyStr.replace "<s>" "" (PyStr.strip text)))).

(** The closing [if] after the loop. *)
Definition finish (st : state) : list triplet :=
  if negb (PyStr.is_empty (subject st))
     && negb (PyStr.is_empty (relation st))
     && negb (PyStr.is_empty (object_ st))
  then triplets st ++ [pending st]
  else triplets st.

Definition extract_triplets (text : string) : list triplet :=
  finish (run (tokens_of text) init).

End Decoder.

(** ** The causal filter: the comprehension closing
       [Visualizer.extract_causal_relationships] *)

Module Filter.
Import Decoder.

(** [self.causal_keywords], the set built in [__init__]. *)
Definition causal_keywords : gset string :=
  list_to_set
    [ "encodes"; "use"; "uses"; "based on"; "connects with"; "endemic to";
      "influenced by"; "followed by"; "follows"; "has cause"; "has effect";
      "inception" ].

(** [any(k in t['type'].lower() for k in keywords)] *)
Definition accept (keywords : gset string) (t : triplet) : bool :=
  existsb (fun k => PyStr.contains k (PyStr.lower (type t)))
          (elements keywords).

(** [[t for t in all_triples if any(...)]] *)
Definition causal_filter (keywords : gset string) (ts : list triplet)
  : list triplet :=
  List.filter (accept keywords) ts.

(** [k] occurs in [s] as a substring. *)
Definition is_substring (k s : string) : Prop :=
  exists pre post, s = pre +:+ k +:+ post.

End Filter.

(** ** The extraction pipeline:
       [Visualizer.extract_causal_relationships] *)

Module Pipeline.
Import Py Decoder Filter.

Section Extraction.
(** The tokenizer and the model are collaborators: each call returns or
    raises. *)
Context {model_inputs generated_tokens : Type}.
Variable tokenizer : string -> result model_inputs.
Variable generate : model_inputs -> result generated_tokens.
Variable batch_decode : generated_tokens -> result (list string).

(** The body of [for chunk in chunks]: the triples it adds to
    [all_triples]. *)
Definition decode_chunk (chunk : string) : result (list triplet) :=
  inputs ← tokenizer chunk;
  generated ← generate inputs;
  decoded_preds ← batch_decode generated;
  mret (flat_map extract_triplets decoded_preds).

Fixpoint for_chunks (chunks : list string) (all_triples : list triplet)
  : result (list triplet) :=
  match chunks with
  | [] => Ok all_triples
  | chunk :: rest =>
      found ← decode_chunk chunk;
      for_chunks rest (all_triples ++ found)
  end.

(** The body of the [try]. *)
Definition try_body (text : string) : result (list triplet) :=
  all_triples ← for_chunks (PyStr.slices 1000 text) [];
  mret (causal_filter causal_keywords all_triples).

(** [try: ... except Exception as e: print(...); return []] *)
Definition extract_causal_relationships (text : string)
  : result (list triplet) :=
  match try_body text with
  | Ok found => Ok found
  | Raise e => if is_Exception e then Ok [] else Raise e
  end.

End Extraction.

(** *** Sample collaborators *)

(** A tokenizer that hands the chunk on, a generator that fails on a chunk
    starting with "b", and a decoder that always returns one causal
    sentence. *)
Definition stub_tokenizer (chunk : string) : result string := Ok chunk.

Definition stub_generate (inputs : string) : result string :=
  if String.prefix "b" inputs
  then Raise (OtherException "RuntimeError")
  else Ok inputs.

Definition stub_batch_decode (generated : string) : result (list string) :=
  Ok ["<s><triplet> rain <subj> flood <obj> has effect</s>"].

(** A text of 1001 characters: a thousand "a", then "b". *)
Definition long_text : string :=
  string_of_list_ascii (List.repeat "a"%char 1000) +:+ "b".

End Pipeline.

(** ** The graph store: the Cypher statement run by [Visualizer.process]

    [MERGE (a:Entity {name: $entity_one})
     MERGE (b:Entity {name: $entity_two})
     MERGE (a)-[:RELATION {type: $relation}]->(b)]

    The store is a property graph: nodes carry an id, labels and properties,
    relationships carry their end points, a type and properties.  Both are
    kept in lists, so that a second node of the same name or a parallel
    relationship would show as a second list element.  A [MERGE] clause is
    run once per incoming row: it binds every match of its pattern, and
    creates the pattern when there is no match. *)

Module Neo4j.

Record node := Node {
  node_id : nat;
  node_labels : gset string;
  node_props : gmap string string
}.

Record relationship := Rel {
  rel_start : nat;
  rel_end : nat;
  rel_type : string;
  rel_props : gmap string string
}.

Record store := Store {
  nodes : list node;
  rels : list relationship;
  next_id : nat
}.

Definition empty_store : store := Store [] [] 0.

(** The node pattern [(:label {key: val})]. *)
Definition node_matches (label key val : string) (n : node) : bool :=
  bool_decide (label ∈ node_labels n /\ node_props n !! key = Some val).

(** The relationship pattern [(a)-[:ty {key: val}]->(b)] for bound [a], [b]. *)
Definition rel_matches (a b : nat) (ty key val : string) (r : relationship)
  : bool :=
  bool_decide (rel_start r = a /\ rel_end r = b /\ rel_type r = ty
               /\ rel_props r !! key = Some val).

(** [MERGE (x:label {key: val})] on one row: the ids bound to [x]. *)
Definition merge_node (label key val : string) (db : store)
  : store * list nat :=
  match List.filter (node_matches label key val) (nodes db) with
  | [] =>
      let n := Node (next_id db) {[ label ]} {[ key := val ]} in
      (Store (nodes db ++ [n]) (rels db) (S (next_id db)), [next_id db])
  | found => (db, map node_id found)
  end.

(** [MERGE (a)-[:ty {key: val}]->(b)] on one row. *)
Definition merge_rel (ty key val : string) (db : store) (row : nat * nat)
  : store :=
  if existsb (rel_matches row.1 row.2 ty key val) (rels db) then db
  else Store (nodes db)
             (rels db ++ [Rel row.1 row.2 ty {[ key := val ]}])
             (next_id db).

(** The second [MERGE], run for every row [a] of the first: it extends the
    rows by the bindings of [b]. *)
Definition merge_second (label key val : string)
    (acc : store * list (nat * nat)) (a : nat) : store * list (nat * nat) :=
  let '(db', bs) := merge_node label key val acc.1 in
  (db', acc.2 ++ map (pair a) bs).

(** The whole statement with its three parameters. *)
Definition upsert (entity_one entity_two relation : string) (db : store)
  : store :=
  let '(db1, rows_a) := merge_node "Entity" "name" entity_one db in
  let '(db2, rows_ab) :=
    fold_left (merge_second "Entity" "name" entity_two) rows_a (db1, []) in
  fold_left (merge_rel "RELATION" "type" relation) rows_ab db2.

(** The statement run for one relationship of the inner loop of [process]. *)
Definition store_triple (t : Decoder.triplet) (db : store) : store :=
  upsert (Decoder.head t) (Decoder.tail t) (Decoder.type t) db.

(** The store after the relationships [ts] were stored in order. *)
Definition store_all (ts : list Decoder.triplet) (db : store) : store :=
  fold_left (fun d t => store_triple t d) ts db.

(** Number of entities of a given name. *)
Definition count_entities (name : string) (db : store) : nat :=
  length (List.filter (node_matches "Entity" "name" name) (nodes db)).

(** The node [id] is an entity named [name]. *)
Definition is_entity (name : string) (db : store) (id : nat) : bool :=
  existsb (fun n => Nat.eqb (node_id n) id
                    && node_matches "Entity" "name" name n) (nodes db).

(** A relationship with the edge key (source name, target name, type). *)
Definition edge_matches (source target ty : string) (db : store)
    (r : relationship) : bool :=
  is_entity source db (rel_start r) && is_entity target db (rel_end r)
  && bool_decide (rel_type r = "RELATION"
                  /\ rel_props r !! "type" = Some ty).

Definition count_edges (source target ty : string) (db : store) : nat :=
  length (List.filter (edge_matches source target ty db) (rels db)).

(** The node a [MERGE] creates for the name [x]. *)
Definition new_entity (db : store) (x : string) : node :=
  Node (next_id db) {[ "Entity" ]} {[ "name" := x ]}.

(** The invariant of the stores the statement builds: ids are fresh and
    distinct, no two entities share a name, no two relationships share end
    points, type and type property. *)
Record wf (db : store) : Prop := WF {
  wf_ids : forall n, n ∈ nodes db -> node_id n < next_id db;
  wf_nodup : NoDup (map node_id (nodes db));
  wf_names : forall x,
    length (List.filter (node_matches "Entity" "name" x) (nodes db)) <= 1;
  wf_rels : forall a b ty,
    length (List.filter (rel_matches a b "RELATION" "type" ty) (rels db)) <= 1
}.

(** The triple is in the store: one entity of each name, and a relationship
    between them of the given type. *)
Definition present (h t ty : string) (db : store) : Prop :=
  exists na nb,
    List.filter (node_matches "Entity" "name" h) (nodes db) = [na]
    /\ List.filter (node_matches "Entity" "name" t) (nodes db) = [nb]
    /\ existsb (rel_matches (node_id na) (node_id nb) "RELATION" "type" ty)
               (rels db) = true.

End Neo4j.

(** ** JSON values and the graph of [clustering.py] *)

Module Json.
Import Py.

(** What [json.load] returns.  Numbers are the integers; a JSON object is the
    [dict] it is loaded to. *)
#[local] Unset Elimination Schemes.
Inductive json :=
| JNull
| JBool (b : bool)
| JInt (z : Z)
| JStr (s : string)
| JArr (l : list json)
| JObj (m : gmap string json).
#[local] Set Elimination Schemes.

(** [v[k]] for a string [k]: only a [dict] can be indexed by a string. *)
Definition getitem (v : json) (k : string) : result json :=
  match v with
  | JObj m =>
      match m !! k with
      | Some x => Ok x
      | None => Raise (KeyError k)
      end
  | _ => Raise TypeError
  end.

(** The values [for x in v] ranges over: the elements of a list, the keys of
    a dict, the characters of a string; the other values are not iterable. *)
Definition iter (v : json) : result (list json) :=
  match v with
  | JArr l => Ok l
  | JObj m => Ok (JStr <$> (map_to_list m).*1)
  | JStr s => Ok ((fun c => JStr (String c EmptyString)) <$> list_ascii_of_string s)
  | _ => Raise TypeError
  end.

(** The hashable values, up to Python's equality: [True == 1] and
    [False == 0], and they hash alike. *)
Inductive hashable := HNone | HInt (z : Z) | HStr (s : string).

#[global] Instance hashable_eq_dec : EqDecision hashable.
Proof. solve_decision. Defined.

#[global] Instance hashable_countable : Countable hashable.
Proof.
  refine (inj_countable'
            (fun h => match h with
                      | HNone => inl ()
                      | HInt z => inr (inl z)
                      | HStr s => inr (inr s)
                      end)
            (fun x => match x with
                      | inl _ => HNone
                      | inr (inl z) => HInt z
                      | inr (inr s) => HStr s
                      end) _).
  by intros [].
Defined.

(** [hash(v)]: lists and dicts are unhashable. *)
Definition hash_of (v : json) : option hashable :=
  match v with
  | JNull => Some HNone
  | JBool b => Some (HInt (if b then 1 else 0))
  | JInt z => Some (HInt z)
  | JStr s => Some (HStr s)
  | JArr _ | JObj _ => None
  end.

End Json.

(** ** [networkx.Graph]

    The node dict and the adjacency dict of dicts, each with its attribute
    dicts, and the methods [create_graph] calls, as networkx 2 and later
    define them. *)

Module Nx.
Import Py Json.

Record graph := Graph {
  _node : gmap hashable (gmap string json);
  _adj : gmap hashable (gmap hashable (gmap string json))
}.

(** [nx.Graph()] *)
Definition empty_graph : graph := Graph ∅ ∅.

(** [n in G]: an unhashable [n] is in no graph. *)
Definition has_node (G : graph) (n : json) : bool :=
  match hash_of n with
  | Some k => bool_decide (is_Some (_node G !! k))
  | None => false
  end.

(** [G.add_node(n, **attr)] *)
Definition add_node (n : json) (attr : gmap string json) (G : graph)
  : result graph :=
  match hash_of n with
  | None => Raise TypeError
  | Some k =>
      match _node G !! k with
      | None =>
          match k with
          | HNone => Raise ValueError
          | _ => Ok (Graph (<[k := attr]> (_node G)) (<[k := ∅]> (_adj G)))
          end
      | Some old => Ok (Graph (<[k := attr ∪ old]> (_node G)) (_adj G))
      end
  end.

(** The start of [add_edge] for one end point: a missing end point becomes a
    node without attributes. *)
Definition ensure_node (n : json) (G : graph) : result (hashable * graph) :=
  match hash_of n with
  | None => Raise TypeError
  | Some k =>
      match _node G !! k with
      | Some _ => Ok (k, G)
      | None =>
          match k with
          | HNone => Raise ValueError
          | _ => Ok (k, Graph (<[k := ∅]> (_node G)) (<[k := ∅]> (_adj G)))
          end
      end
  end.

(** [G.add_edge(u, v, **attr)]: the attribute dict of the edge is updated
    and stored under both directions. *)
Definition add_edge (u v : json) (attr : gmap string json) (G : graph)
  : result graph :=
  '(ku, G1) ← ensure_node u G;
  '(kv, G2) ← ensure_node v G1;
  let datadict := attr ∪ default ∅ (_adj G2 !! ku ≫= fun nbrs => nbrs !! kv) in
  let adj1 := alter (fun nbrs => <[kv := datadict]> nbrs) ku (_adj G2) in
  let adj2 := alter (fun nbrs => <[ku := datadict]> nbrs) kv adj1 in
  mret (Graph (_node G2) adj2).

(** [G.degree(n)] for the neighbours [nbrs] of [n]: a self-loop counts
    twice. *)
Definition degree (k : hashable) (nbrs : gmap hashable (gmap string json))
  : nat :=
  size nbrs + (if bool_decide (is_Some (nbrs !! k)) then 1 else 0).

(** [G.number_of_edges()]: half the sum of the degrees. *)
Definition number_of_edges (G : graph) : nat :=
  map_fold (fun k nbrs acc => acc + degree k nbrs) 0 (_adj G) / 2.

End Nx.

(** ** [Clustering.create_graph] *)

Module Clustering.
Import Py Json Nx.

(** [for x in xs: G = body(G, x)], stopping at the first exception. *)
Fixpoint for_each {A} (body : graph -> A -> result graph) (xs : list A)
    (G : graph) : result graph :=
  match xs with
  | [] => Ok G
  | x :: rest => G' ← body G x; for_each body rest G'
  end.

(** The mapping unpacked by [**v]. *)
Definition as_kwargs (v : json) : result (gmap string json) :=
  match v with
  | JObj m => Ok m
  | _ => Raise TypeError
  end.

(** [G.add_node(node["id"], labels=node["labels"], **node["properties"])]:
    a property named like a parameter already given is a [TypeError]. *)
Definition add_one_node (G : graph) (node : json) : result graph :=
  id ← getitem node "id";
  labels ← getitem node "labels";
  properties ← getitem node "properties";
  kwargs ← as_kwargs properties;
  if bool_decide (is_Some (kwargs !! "labels")
                  \/ is_Some (kwargs !! "node_for_adding"))
  then Raise TypeError
  else add_node id (<["labels" := labels]> kwargs) G.

(** The body of [for rel in self.graph_data["relationships"]]. *)
Definition add_one_rel (G : graph) (rel : json) : result graph :=
  start ← getitem rel "start";
  if has_node G start then
    end_ ← getitem rel "end";
    if has_node G end_ then
      type ← getitem rel "type";
      properties ← getitem rel "properties";
      name ← getitem properties "type";
      add_edge start end_ {[ "type" := type; "name" := name ]} G
    else Ok G
  else Ok G.

(** The first loop. *)
Definition add_nodes (graph_data : json) : result graph :=
  nodes ← getitem graph_data "nodes";
  node_list ← iter nodes;
  for_each add_one_node node_list Nx.empty_graph.

(** The second loop. *)
Definition add_relationships (graph_data : json) (G : graph) : result graph :=
  relationships ← getitem graph_data "relationships";
  rel_list ← iter relationships;
  for_each add_one_rel rel_list G.

(** [graph_data] is what [read_json] left in [self.graph_data]: the loaded
    value, or [None] ([JNull]) when the file could not be read. *)
Definition create_graph (graph_data : json) : result graph :=
  G ← add_nodes graph_data;
  add_relationships graph_data G.

Section Partition.
(** [community_louvain.best_partition] belongs to the python-louvain
    package and is a collaborator here.  The call passes the graph and
    nothing else, so whatever process state the package consults (its random
    state) is threaded as [rng]. *)
Context {rng : Type}.
Variable best_partition : rng -> graph -> result (gmap hashable nat) * rng.

Definition cluster_graph (r : rng) (G : graph)
  : result (gmap hashable nat) * rng :=
  best_partition r G.
End Partition.

(** *** Notions used to state the properties *)

(** The edge count of the graph built, when one is built. *)
Definition edges_of (r : result graph) : option nat :=
  match r with Ok G => Some (number_of_edges G) | Raise _ => None end.

(** The key under which a node description is declared. *)
Definition id_key (node : json) : option hashable :=
  match getitem node "id" with
  | Ok v => hash_of v
  | Raise _ => None
  end.

(** The ids the node descriptions declare. *)
Definition declared_ids (node_list : list json) : gset hashable :=
  list_to_set (omap id_key node_list).

(** The value is the id of a declared node. *)
Definition declared (node_list : list json) (v : json) : bool :=
  match hash_of v with
  | Some k => bool_decide (k ∈ declared_ids node_list)
  | None => false
  end.

(** A relationship whose start id, or else whose end id, is not declared. *)
Definition dangling (node_list : list json) (rel : json) : bool :=
  match getitem rel "start" with
  | Ok s =>
      if declared node_list s then
        match getitem rel "end" with
        | Ok e => negb (declared node_list e)
        | Raise _ => false
        end
      else true
  | Raise _ => false
  end.

(** The description without its dangling relationships. *)
Definition without_dangling (graph_data : json) : json :=
  match graph_data with
  | JObj m =>
      match m !! "nodes", m !! "relationships" with
      | Some (JArr node_list), Some (JArr rel_list) =>
          JObj (<["relationships" :=
                    JArr (List.filter (fun rel => negb (dangling node_list rel))
                                      rel_list)]> m)
      | _, _ => graph_data
      end
  | _ => graph_data
  end.

(** *** Sample descriptions *)

Definition sample_node (id : Z) : json :=
  JObj {[ "id" := JInt id; "labels" := JArr [JStr "Entity"];
          "properties" := JObj {[ "name" := JStr "n" ]} ]}.

Definition sample_rel (s e : Z) : json :=
  JObj {[ "start" := JInt s; "end" := JInt e; "type" := JStr "RELATION";
          "properties" := JObj {[ "type" := JStr "has effect" ]} ]}.

Definition sample_data (rels : list json) : json :=
  JObj {[ "nodes" := JArr [sample_node 1; sample_node 2; sample_node 3];
          "relationships" := JArr rels ]}.

(** A relationship that has no type property. *)
Definition untyped_rel (s e : Z) : json :=
  JObj {[ "start" := JInt s; "end" := JInt e; "type" := JStr "RELATION";
          "properties" := JObj {[ "since" := JInt 2020 ]} ]}.

(** The graph a successful call returned. *)
Definition result_value (r : result graph) : graph :=
  match r with Ok G => G | Raise _ => Nx.empty_graph end.

End Clustering.

(** ** Words and phrases

    The shapes the decoder's tokens and fields take. *)

Module Words.

(** No character of [s] is white space. *)
Fixpoint no_space (s : string) : bool :=
  match s with
  | EmptyString => true
  | String c s' => negb (PyStr.isspace c) && no_space s'
  end.

(** A non-empty run of characters that are no white space: what [split]
    returns. *)
Definition is_word (tok : string) : bool :=
  negb (PyStr.is_empty tok) && no_space tok.

(** The accumulator after the words [toks] were added: each one after a
    space. *)
Fixpoint spaced (toks : list string) : string :=
  match toks with
  | [] => ""
  | tok :: rest => " " +:+ tok +:+ spaced rest
  end.

(** Words separated by single spaces. *)
Definition is_phrase (s : string) : Prop :=
  exists toks, Forall (fun tok => is_word tok = true) toks
               /\ s = String.concat " " toks.

(** The last character of [s] exists and is no white space. *)
Fixpoint ends_in_text (s : string) : bool :=
  match s with
  | EmptyString => false
  | String c EmptyString => negb (PyStr.isspace c)
  | String _ s' => ends_in_text s'
  end.

(** The tokens at which the loop can append a triple. *)
Definition is_emitter (token : string) : bool :=
  String.eqb token "<triplet>" || String.eqb token "<subj>".

(** An accumulator of the loop: words, each after a space. *)
Definition is_accumulator (s : string) : Prop :=
  exists toks, Forall (fun tok => is_word tok = true) toks /\ s = spaced toks.

(** A triple whose fields are phrases and whose type is not empty. *)
Definition well_formed (t : Decoder.triplet) : Prop :=
  is_phrase (Decoder.head t)
  /\ is_phrase (Decoder.type t) /\ Decoder.type t <> ""
  /\ is_phrase (Decoder.tail t).

(** The invariant of the loop over words. *)
Definition loop_invariant (st : Decoder.state) : Prop :=
  is_accumulator (Decoder.subject st)
  /\ is_accumulator (Decoder.relation st)
  /\ is_accumulator (Decoder.object_ st)
  /\ Forall well_formed (Decoder.triplets st).

End Words.

(** ** Notions for the pipeline *)

Module PipelineSpec.
Import Py Decoder.

(** The triples of a chunk that was decoded, none for one that failed. *)
Definition triples_of (r : result (list triplet)) : list triplet :=
  match r with Ok found => found | Raise _ => [] end.

(** A tokenizer that is interrupted on a chunk starting with "b". *)
Definition interrupted_tokenizer (chunk : string) : result string :=
  if String.prefix "b" chunk
  then Raise (BaseOnly "KeyboardInterrupt")
  else Ok chunk.

End PipelineSpec.

(** ** Notions for the graph store *)

Module StoreSpec.
Import Decoder Neo4j.

(** The end points of every relationship are ids the store has given out. *)
Definition ends_bound (db : store) : Prop :=
  forall r, r ∈ rels db -> rel_start r < next_id db /\ rel_end r < next_id db.

(** The names the triples mention, as head or as tail. *)
Definition names_of (ts : list triplet) : gset string :=
  list_to_set (flat_map (fun t => [head t; tail t]) ts).

(** The types the triples mention. *)
Definition types_of (ts : list triplet) : gset string :=
  list_to_set (map type ts).

End StoreSpec.

(** ** [Visualizer.read_json] and [Visualizer.process]

    An article is a record as [ArticleExtractor] writes it: its content is a
    string, or [None] when the extraction failed.  The statement sent to the
    store is taken to succeed, as in [Neo4j]. *)

Module Process.
Import Py Decoder Filter Pipeline Neo4j.

Record article := Article {
  url : string;
  title : option string;
  content : option string;
  summary : option string
}.

(** What opening and loading the file comes to. *)
Inductive file_read :=
| FileNotFound
| NotJson
| Loaded (loaded : list article)
| ReadError (e : exn).

(** The attributes of a [Visualizer] that [process] reads and writes. *)
Record visualizer := Visualizer {
  articles : list article;
  entity : gset string;
  relation : gset string;
  db : store
}.

(** The attributes after [__init__], with an empty store behind it. *)
Definition fresh : visualizer := Visualizer [] ∅ ∅ empty_store.

(** [read_json]: the two exceptions it names are reported and leave
    [self.articles] as it was; any other leaves the call. *)
Definition read_json (file : file_read) (self : visualizer)
  : result visualizer :=
  match file with
  | Loaded loaded =>
      Ok (Visualizer loaded (entity self) (relation self) (db self))
  | FileNotFound | NotJson => Ok self
  | ReadError e => Raise e
  end.

(** The body of [for relationship in causal_relationships]. *)
Definition store_relationship (self : visualizer) (relationship : triplet)
  : visualizer :=
  Visualizer (articles self)
             ({[ tail relationship ]} ∪ ({[ head relationship ]} ∪ entity self))
             ({[ type relationship ]} ∪ relation self)
             (store_triple relationship (db self)).

Section Collaborators.
Context {model_inputs generated_tokens : Type}.
Variable tokenizer : string -> result model_inputs.
Variable generate : model_inputs -> result generated_tokens.
Variable batch_decode : generated_tokens -> result (list string).

(** The body of [for article in self.articles]: [if article['content']]
    lets through the non-empty strings. *)
Definition process_article (self : visualizer) (a : article)
  : result visualizer :=
  match content a with
  | Some text =>
      if PyStr.is_empty text then Ok self
      else
        causal_relationships ←
          extract_causal_relationships tokenizer generate batch_decode text;
        Ok (fold_left store_relationship causal_relationships self)
  | None => Ok self
  end.

Fixpoint for_articles (todo : list article) (self : visualizer)
  : result visualizer :=
  match todo with
  | [] => Ok self
  | a :: rest => self' ← process_article self a; for_articles rest self'
  end.

Definition process (file : file_read) (self : visualizer)
  : result visualizer :=
  self' ← read_json file self;
  for_articles (articles self') self'.

(** The triples [process] sends to the store for one article. *)
Definition stored_for (a : article) : list triplet :=
  match content a with
  | Some text =>
      if PyStr.is_empty text then []
      else PipelineSpec.triples_of
             (extract_causal_relationships tokenizer generate batch_decode text)
  | None => []
  end.

(** No article of [todo] makes the extraction raise. *)
Definition no_article_raises (todo : list article) : Prop :=
  forall a text,
    a ∈ todo -> content a = Some text -> PyStr.is_empty text = false ->
    is_Ok (extract_causal_relationships tokenizer generate batch_decode text)
    = true.

End Collaborators.

(** The sets in memory and the store hold the same triples. *)
Definition mirrors (self : visualizer) : Prop :=
  exists ts,
    entity self = StoreSpec.names_of ts
    /\ relation self = StoreSpec.types_of ts
    /\ db self = store_all ts empty_store.

(** Four articles: one whose extraction failed, two with a text, one with
    an empty text. *)
Definition sample_articles : list article :=
  [ Article "https://a.example" None None None;
    Article "https://b.example" (Some "B") (Some "aaa") (Some "s");
    Article "https://c.example" (Some "C") (Some "") None;
    Article "https://d.example" (Some "D") (Some "bbb") (Some "s") ].

End Process.

(** ** Notions for the graph built by [create_graph] *)

Module GraphSpec.
Import Py Json Nx Clustering.

(** The attribute dict of the edge between [u] and [v], when there is one:
    [G[u][v]]. *)
Definition edge_data (G : graph) (u v : hashable)
  : option (gmap string json) :=
  _adj G !! u ≫= fun nbrs => nbrs !! v.

(** [G.has_edge(u, v)] *)
Definition has_edge (G : graph) (u v : hashable) : bool :=
  bool_decide (is_Some (edge_data G u v)).

(** The adjacency dict after [add_edge] stored [datadict] between two nodes
    that are present. *)
Definition linked (ku kv : hashable) (datadict : gmap string json)
    (G : graph) : graph :=
  Graph (_node G)
        (alter (fun nbrs => <[ku := datadict]> nbrs) kv
           (alter (fun nbrs => <[kv := datadict]> nbrs) ku (_adj G))).

(** The invariant of an undirected graph: every node has an adjacency
    entry, neighbours are nodes, and an edge is stored under both
    directions with the same attributes. *)
Record graph_ok (G : graph) : Prop := GraphOk {
  ok_dom : dom (_adj G) = dom (_node G);
  ok_nbrs : forall u v d, edge_data G u v = Some d -> v ∈ dom (_node G);
  ok_sym : forall u v, edge_data G u v = edge_data G v u
}.

(** The attributes [create_graph] gives the edge of a relationship. *)
Definition rel_attrs (rel : json) : option (gmap string json) :=
  match getitem rel "type", getitem rel "properties" with
  | Ok type, Ok properties =>
      match getitem properties "type" with
      | Ok name => Some {[ "type" := type; "name" := name ]}
      | Raise _ => None
      end
  | _, _ => None
  end.

(** The two nodes a relationship joins, when both its ends are hashable. *)
Definition rel_ends (rel : json) : option (hashable * hashable) :=
  match getitem rel "start", getitem rel "end" with
  | Ok s, Ok e =>
      match hash_of s, hash_of e with
      | Some ks, Some ke => Some (ks, ke)
      | _, _ => None
      end
  | _, _ => None
  end.

(** The relationship joins the nodes [u] and [v], in either direction. *)
Definition joins (rel : json) (u v : hashable) : Prop :=
  rel_ends rel = Some (u, v) \/ rel_ends rel = Some (v, u).

(** Every edge carries exactly the attributes "type" and "name". *)
Definition edge_keys_ok (G : graph) : Prop :=
  forall u v d, edge_data G u v = Some d ->
                dom d = ({[ "type"; "name" ]} : gset string).

(** The relationship adds an edge: it joins two nodes that are present and
    not yet joined. *)
Definition adds_edge (G : graph) (rel : json) : bool :=
  match rel_ends rel with
  | Some (ku, kv) =>
      bool_decide (ku ∈ dom (_node G)) && bool_decide (kv ∈ dom (_node G))
      && negb (has_edge G ku kv)
  | None => false
  end.

(** The sum of the degrees: twice the number of edges. *)
Definition total_degree (G : graph) : nat :=
  map_fold (fun k nbrs acc => acc + degree k nbrs) 0 (_adj G).

(** A node whose properties carry a key named "labels". *)
Definition clashing_node (id : Z) : json :=
  JObj {[ "id" := JInt id; "labels" := JArr [JStr "Entity"];
          "properties" := JObj {[ "labels" := JStr "x" ]} ]}.


End GraphSpec.

(** ** [Visualizer.visualize]: the graph handed to the renderer

    [MATCH (e1:Entity)-[r:RELATION]->(e2:Entity)
     RETURN e1.name AS source, r.type AS relation, e2.name AS target]

    gives one record for every relationship of type RELATION between two
    nodes labelled Entity, with the properties asked for, [None] standing
    for a property that is missing.  The store does not promise an order of
    the records; they are taken in the order of the relationships.  Each
    record becomes an edge of a [networkx.DiGraph]. *)

Module Viz.
Import Py Neo4j.

Record record := Record_ {
  source : option string;
  relation : option string;
  target : option string
}.

(** The nodes [MATCH] binds to one end of a relationship. *)
Definition entities_with_id (db : store) (id : nat) : list node :=
  List.filter (fun n => Nat.eqb (node_id n) id
                        && bool_decide ("Entity" ∈ node_labels n))
              (nodes db).

(** The records of one relationship. *)
Definition records_of (db : store) (r : relationship) : list record :=
  if bool_decide (rel_type r = "RELATION") then
    flat_map
      (fun e1 =>
         map (fun e2 => Record_ (node_props e1 !! "name")
                                (rel_props r !! "type")
                                (node_props e2 !! "name"))
             (entities_with_id db (rel_end r)))
      (entities_with_id db (rel_start r))
  else [].

(** The result of the query. *)
Definition match_relations (db : store) : list record :=
  flat_map (records_of db) (rels db).

(** [networkx.DiGraph] with string nodes: the node dict, and the attribute
    dicts of the edges under their start ([_succ]) and under their end
    ([_pred]). *)
Record digraph := DiGraph {
  dg_node : gmap string (gmap string (option string));
  dg_succ : gmap string (gmap string (gmap string (option string)));
  dg_pred : gmap string (gmap string (gmap string (option string)))
}.

(** [nx.DiGraph()] *)
Definition empty_digraph : digraph := DiGraph ∅ ∅ ∅.

(** The start of [add_edge] for one end point. *)
Definition dg_ensure (k : string) (G : digraph) : digraph :=
  match dg_succ G !! k with
  | Some _ => G
  | None => DiGraph (<[k := ∅]> (dg_node G)) (<[k := ∅]> (dg_succ G))
                    (<[k := ∅]> (dg_pred G))
  end.

(** [G.add_edge(u, v, **attr)]: [None] cannot be a node. *)
Definition dg_add_edge (u v : option string)
    (attr : gmap string (option string)) (G : digraph) : result digraph :=
  match u with
  | None => Raise ValueError
  | Some ku =>
      let G1 := dg_ensure ku G in
      match v with
      | None => Raise ValueError
      | Some kv =>
          let G2 := dg_ensure kv G1 in
          let datadict :=
            attr ∪ default ∅ (dg_succ G2 !! ku ≫= fun nbrs => nbrs !! kv) in
          Ok (DiGraph (dg_node G2)
                (alter (fun nbrs => <[kv := datadict]> nbrs) ku (dg_succ G2))
                (alter (fun nbrs => <[ku := datadict]> nbrs) kv (dg_pred G2)))
      end
  end.

(** The body of [for record in result]. *)
Definition add_record (G : digraph) (rec : record) : result digraph :=
  dg_add_edge (source rec) (target rec)
              {[ "title" := relation rec; "label" := relation rec ]} G.

Fixpoint for_records (recs : list record) (G : digraph) : result digraph :=
  match recs with
  | [] => Ok G
  | rec :: rest => G' ← add_record G rec; for_records rest G'
  end.

(** The graph [visualize] builds from the store. *)
Definition visualize (db : store) : result digraph :=
  for_records (match_relations db) empty_digraph.

(** [G.has_edge(u, v)] *)
Definition has_arc (G : digraph) (u v : string) : bool :=
  bool_decide (is_Some (dg_succ G !! u ≫= fun nbrs => nbrs !! v)).

(** The attribute dict of the edge from [u] to [v], when there is one. *)
Definition arc_data (G : digraph) (u v : string)
  : option (gmap string (option string)) :=
  dg_succ G !! u ≫= fun nbrs => nbrs !! v.

(** Every entity has a name and every relation a type property. *)
Definition named (db : store) : Prop :=
  (forall n, n ∈ nodes db -> "Entity" ∈ node_labels n ->
             is_Some (node_props n !! "name"))
  /\ (forall r, r ∈ rels db -> rel_type r = "RELATION" ->
                is_Some (rel_props r !! "type")).

(** The graph built, or the empty one. *)
Definition drawn (r : result digraph) : digraph :=
  match r with Ok G => G | Raise _ => empty_digraph end.

End Viz.

(** ** Properties of the decoder *)

Module DecoderFacts.
Import Decoder.

Example strip_both_ends :
  PyStr.strip (String "009" "  a b " +:+ String "010" "") = "a b".
Proof. reflexivity. Qed.

Example split_runs :
  PyStr.split (" a  b" +:+ String "009" "c" +:+ String "010" "")
  = ["a"; "b"; "c"].
Proof. reflexivity. Qed.

Example replace_leftmost : PyStr.replace "<s>" "" "<s><s>x<<s>s><s" = "x<s><s".
Proof. reflexivity. Qed.

Example replace_with_text : PyStr.replace "ab" "c" "ababa" = "cca".
Proof. reflexivity. Qed.

Example tokens_of_paris :
  tokens_of "<triplet> Paris <subj> France <obj> capital_of"
  = ["<triplet>"; "Paris"; "<subj>"; "France"; "<obj>"; "capital_of"].
Proof. reflexivity. Qed.

Example tokens_of_sentinels :
  tokens_of "<s><triplet> a <subj> b <obj> r</s><pad><pad>"
  = ["<triplet>"; "a"; "<subj>"; "b"; "<obj>"; "r"].
Proof. reflexivity. Qed.

Example extract_markerless : extract_triplets "no markers here" = [].
Proof. reflexivity. Qed.

(** C1: on "<triplet> Paris <subj> France <obj> capital_of" the decoder
    returns exactly the one triple with head "Paris", type "capital_of" and
    tail "France": the text after <subj> lands in the tail and the text
    after <obj> in the type. *)
Theorem extract_triplets_paris :
  extract_triplets "<triplet> Paris <subj> France <obj> capital_of"
  = [ {| head := "Paris"; type := "capital_of"; tail := "France" |} ].
Proof. vm_compute. reflexivity. Qed.

(** *** What one marker does *)

Lemma step_triplet_marker st :
  step st "<triplet>"
  = if PyStr.is_empty (relation st)
    then State (triplets st) (relation st) "" (object_ st) cur_t
    else State (triplets st ++ [pending st]) "" "" (object_ st) cur_t.
Proof. unfold step; simpl. by destruct (PyStr.is_empty (relation st)). Qed.

Lemma step_subj_marker st :
  step st "<subj>"
  = if PyStr.is_empty (relation st)
    then State (triplets st) (relation st) (subject st) "" cur_s
    else State (triplets st ++ [pending st]) (relation st) (subject st) "" cur_s.
Proof. unfold step; simpl. by destruct (PyStr.is_empty (relation st)). Qed.

Lemma step_obj_marker st :
  step st "<obj>" = State (triplets st) "" (subject st) (object_ st) cur_o.
Proof. reflexivity. Qed.

(** Every token appends nothing or the one pending triple. *)
Lemma step_emits_at_most_one st token :
  triplets (step st token) = triplets st
  \/ triplets (step st token) = triplets st ++ [pending st].
Proof.
  unfold step.
  repeat (case_match; simpl; auto).
Qed.

Lemma relation_after_triplet_marker st :
  relation (step st "<triplet>") = "".
Proof.
  rewrite step_triplet_marker.
  destruct (relation st) eqn:E; simpl; auto.
Qed.

(** Once the relation accumulator is empty, further <triplet> markers
    append nothing. *)
Lemma run_triplet_markers_idle n st :
  relation st = "" ->
  triplets (run (replicate n "<triplet>") st) = triplets st.
Proof.
  revert st; induction n as [|n IH]; intros st Hrel; [done|].
  change (run (replicate (S n) "<triplet>") st)
    with (run (replicate n "<triplet>") (step st "<triplet>")).
  rewrite IH by apply relation_after_triplet_marker.
  rewrite step_triplet_marker, Hrel. reflexivity.
Qed.

(** The number of triples grows by at most one per token, so a whole input
    yields at most one triple per token plus the closing one. *)
Lemma run_length_bound tokens st :
  length (triplets (run tokens st)) <= length (triplets st) + length tokens.
Proof.
  revert st; induction tokens as [|tok tokens IH]; intros st; simpl; [lia|].
  etrans; [apply IH|].
  destruct (step_emits_at_most_one st tok) as [-> | ->];
    rewrite ?length_app; simpl; lia.
Qed.

(** C3: each token, hence each marker, appends at most one triple (nothing,
    or the pending triple once); in a run of consecutive <triplet> markers
    the pending triple is appended exactly once when the relation
    accumulator is non-empty, by the first marker of the run, and the
    remaining markers of the run append nothing. *)
Theorem consecutive_triplet_markers_emit_once :
  (forall st token,
      triplets (step st token) = triplets st
      \/ triplets (step st token) = triplets st ++ [pending st])
  /\ (forall st n,
        triplets (run (replicate (S n) "<triplet>") st)
        = triplets st
          ++ (if PyStr.is_empty (relation st) then [] else [pending st]))
  /\ (forall st n,
        triplets (run (replicate n "<triplet>") (step st "<triplet>"))
        = triplets (step st "<triplet>")).
Proof.
  split; [exact step_emits_at_most_one|].
  assert (Hidle : forall st n,
             triplets (run (replicate n "<triplet>") (step st "<triplet>"))
             = triplets (step st "<triplet>")).
  { intros st n. apply run_triplet_markers_idle,
      relation_after_triplet_marker. }
  split; [|exact Hidle].
  intros st n.
  change (run (replicate (S n) "<triplet>") st)
    with (run (replicate n "<triplet>") (step st "<triplet>")).
  rewrite Hidle, step_triplet_marker.
  destruct (PyStr.is_empty (relation st)); simpl; [|done].
  by rewrite app_nil_r.
Qed.

(** C9: the <subj> marker never resets the relation accumulator, also when
    it emits; on "<triplet> a <subj> b <obj> r <subj> c <triplet>" the
    second <subj> emits (a, r, b) and the closing <triplet> then emits
    (a, r, c): same head and relation, another tail. *)
Theorem subj_marker_keeps_relation :
  (forall st, relation (step st "<subj>") = relation st)
  /\ extract_triplets "<triplet> a <subj> b <obj> r <subj> c <triplet>"
     = [ {| head := "a"; type := "r"; tail := "b" |};
         {| head := "a"; type := "r"; tail := "c" |} ].
Proof.
  split.
  - intros st. rewrite step_subj_marker.
    by destruct (PyStr.is_empty (relation st)).
  - vm_compute. reflexivity.
Qed.

(** A token that is no marker goes to the accumulator [current] selects. *)
Lemma step_text st token :
  is_marker token = false ->
  step st token
  = match current st with
    | cur_t => State (triplets st) (relation st) (subject st +:+ " " +:+ token)
                     (object_ st) cur_t
    | cur_s => State (triplets st) (relation st) (subject st)
                     (object_ st +:+ " " +:+ token) cur_s
    | cur_o => State (triplets st) (relation st +:+ " " +:+ token) (subject st)
                     (object_ st) cur_o
    | cur_x => st
    end.
Proof.
  unfold is_marker, step. intros H.
  apply orb_false_iff in H as [H H3]. apply orb_false_iff in H as [H1 H2].
  by rewrite H1, H2, H3.
Qed.

(** The general shape of C1: whatever the three texts are, as long as they
    are no markers, the token after <subj> lands in the tail and the token
    after <obj> in the type. *)
Lemma decode_one_triple h t r :
  is_marker h = false -> is_marker t = false -> is_marker r = false ->
  finish (run ["<triplet>"; h; "<subj>"; t; "<obj>"; r] init)
  = [ {| head := PyStr.strip (" " +:+ h);
         type := PyStr.strip (" " +:+ r);
         tail := PyStr.strip (" " +:+ t) |} ].
Proof.
  intros Hh Ht Hr. unfold run. cbn [fold_left].
  change (step init "<triplet>") with (State [] "" "" "" cur_t).
  rewrite (step_text _ h Hh). cbn [current triplets relation subject object_].
  rewrite step_subj_marker. cbn [PyStr.is_empty relation triplets subject].
  rewrite (step_text _ t Ht). cbn [current triplets relation subject object_].
  rewrite step_obj_marker. cbn [triplets subject object_].
  rewrite (step_text _ r Hr). cbn [current triplets relation subject object_].
  reflexivity.
Qed.

End DecoderFacts.

Module FilterFacts.
Import Decoder Filter.

Lemma append_nil s : "" +:+ s = s.
Proof. reflexivity. Qed.

Lemma append_cons c s1 s2 : String c s1 +:+ s2 = String c (s1 +:+ s2).
Proof. reflexivity. Qed.

Lemma prefix_spec k s :
  String.prefix k s = true <-> exists post, s = k +:+ post.
Proof.
  revert s; induction k as [|c k IH]; intros s.
  - split; [intros _; by exists s | by destruct s].
  - setoid_rewrite append_cons.
    destruct s as [|d s]; simpl.
    + split; [done | intros [post H]; discriminate].
    + destruct (Ascii.ascii_dec c d) as [->|Hne].
      * rewrite IH. split; intros [post H]; exists post; congruence.
      * split; [done | intros [post H]; congruence].
Qed.

Lemma contains_spec k s :
  PyStr.contains k s = true <-> is_substring k s.
Proof.
  unfold is_substring.
  induction s as [|d s IH].
  - change (PyStr.contains k "") with (String.prefix k "" || false).
    rewrite orb_false_r, prefix_spec. split.
    + intros [post H]. by exists "", post.
    + intros [pre [post H]]. destruct pre; [by exists post|done].
  - change (PyStr.contains k (String d s))
      with (String.prefix k (String d s) || PyStr.contains k s).
    rewrite orb_true_iff, prefix_spec, IH. split.
    + intros [[post H] | [pre [post H]]].
      * by exists "", post.
      * exists (String d pre), post. by rewrite append_cons, H.
    + intros [pre [post H]]. destruct pre as [|c pre].
      * left. by exists post.
      * right. exists pre, post. rewrite append_cons in H. congruence.
Qed.

Lemma accept_spec keywords t :
  accept keywords t = true
  <-> exists k, k ∈ keywords /\ is_substring k (PyStr.lower (type t)).
Proof.
  unfold accept. rewrite existsb_exists. split.
  - intros [k [Hin Hc]]. exists k. split.
    + by apply elem_of_elements, list_elem_of_In.
    + by apply contains_spec.
  - intros [k [Hin Hs]]. exists k. split.
    + by apply list_elem_of_In, elem_of_elements.
    + by apply contains_spec.
Qed.

Example lower_has_effect_on : PyStr.lower "Has effect on" = "has effect on".
Proof. reflexivity. Qed.

(** C7: a triple is accepted iff its lower-cased type contains a vocabulary
    phrase as a substring; type "Has effect on" is accepted and type
    "located in" is rejected, against the vocabulary {"has effect"} and
    against the configured vocabulary alike. *)
Theorem accept_iff_type_contains_keyword :
  (forall keywords t,
      accept keywords t = true
      <-> exists k, k ∈ keywords /\ is_substring k (PyStr.lower (type t)))
  /\ (forall h tl, accept {[ "has effect" ]} (Triplet h "Has effect on" tl) = true)
  /\ (forall h tl, accept {[ "has effect" ]} (Triplet h "located in" tl) = false)
  /\ (forall h tl, accept causal_keywords (Triplet h "Has effect on" tl) = true)
  /\ (forall h tl, accept causal_keywords (Triplet h "located in" tl) = false).
Proof.
  split; [exact accept_spec|].
  repeat split; intros h tl; vm_compute; reflexivity.
Qed.

End FilterFacts.

Module PipelineFacts.
Import Py Decoder Filter Pipeline.

Example slices_short : PyStr.slices 2 "abcde" = ["ab"; "cd"; "e"].
Proof. reflexivity. Qed.

Example slices_exact : PyStr.slices 2 "abcd" = ["ab"; "cd"].
Proof. reflexivity. Qed.

Example slices_empty : PyStr.slices 1000 "" = [].
Proof. reflexivity. Qed.

Section Extraction.
Context {model_inputs generated_tokens : Type}.
Variable tokenizer : string -> result model_inputs.
Variable generate : model_inputs -> result generated_tokens.
Variable batch_decode : generated_tokens -> result (list string).

Abbreviation decode_chunk := (decode_chunk tokenizer generate batch_decode).
Abbreviation for_chunks := (for_chunks tokenizer generate batch_decode).
Abbreviation try_body := (try_body tokenizer generate batch_decode).

(** The loop raises as soon as one chunk does, whatever was collected
    before; what it raises is what some chunk raised. *)
Lemma for_chunks_raises chunks acc c e :
  c ∈ chunks -> decode_chunk c = Raise e ->
  exists c' e', c' ∈ chunks /\ decode_chunk c' = Raise e'
                /\ for_chunks chunks acc = Raise e'.
Proof.
  revert acc; induction chunks as [|c0 rest IH]; intros acc Hin Hc.
  - by apply elem_of_nil in Hin.
  - simpl. destruct (decode_chunk c0) as [found|e0] eqn:E0.
    + apply elem_of_cons in Hin as [-> | Hin]; [congruence|].
      destruct (IH (acc ++ found) Hin Hc) as (c' & e' & Hin' & Hc' & Hr).
      exists c', e'. split; [apply elem_of_cons; by right|].
      split; [done|]. simpl. exact Hr.
    + exists c0, e0. split; [apply elem_of_cons; by left|]. by split.
Qed.

(** When no chunk raises, the loop returns everything the chunks gave. *)
Lemma for_chunks_ok chunks acc :
  (forall c, c ∈ chunks -> is_Ok (decode_chunk c) = true) ->
  exists found, for_chunks chunks acc = Ok (acc ++ found).
Proof.
  revert acc; induction chunks as [|c0 rest IH]; intros acc Hall.
  - exists []. simpl. by rewrite app_nil_r.
  - simpl. assert (H0 : is_Ok (decode_chunk c0) = true)
      by (apply Hall, elem_of_cons; by left).
    destruct (decode_chunk c0) as [found|e0]; [|done]. simpl.
    destruct (IH (acc ++ found)) as [more Hm].
    { intros c Hc. apply Hall. apply elem_of_cons; by right. }
    exists (found ++ more). by rewrite Hm, app_assoc.
Qed.
End Extraction.

(** C6: when the tokenizer, the generator or the decoder fails on some
    chunk of the text (a failure being an exception that derives from
    [Exception]), the call returns the empty list: it neither raises nor
    returns the triples of the chunks that succeeded. *)
Theorem extraction_failure_returns_empty
    {model_inputs generated_tokens : Type}
    (tokenizer : string -> result model_inputs)
    (generate : model_inputs -> result generated_tokens)
    (batch_decode : generated_tokens -> result (list string))
    (text : string) :
  (forall c e, c ∈ PyStr.slices 1000 text ->
               decode_chunk tokenizer generate batch_decode c = Raise e ->
               is_Exception e = true) ->
  (exists c e, c ∈ PyStr.slices 1000 text
               /\ decode_chunk tokenizer generate batch_decode c = Raise e) ->
  extract_causal_relationships tokenizer generate batch_decode text = Ok [].
Proof.
  intros Hexc (c & e & Hin & Hc).
  destruct (for_chunks_raises tokenizer generate batch_decode _ [] c e Hin Hc)
    as (c' & e' & Hin' & Hc' & Hr).
  unfold extract_causal_relationships, try_body. rewrite Hr. simpl.
  by rewrite (Hexc c' e' Hin' Hc').
Qed.

Example stub_first_chunk :
  decode_chunk stub_tokenizer stub_generate stub_batch_decode
    (String.substring 0 1000 long_text)
  = Ok [ {| head := "rain"; type := "has effect"; tail := "flood" |} ].
Proof. vm_compute. reflexivity. Qed.

Example stub_short_text :
  extract_causal_relationships stub_tokenizer stub_generate stub_batch_decode
    "aaa"
  = Ok [ {| head := "rain"; type := "has effect"; tail := "flood" |} ].
Proof. vm_compute. reflexivity. Qed.

Lemma extraction_failure_returns_empty_witness :
  extract_causal_relationships stub_tokenizer stub_generate stub_batch_decode
    long_text = Ok [].
Proof.
  assert (Hs : PyStr.slices 1000 long_text
               = [String.substring 0 1000 long_text; "b"])
    by (vm_compute; reflexivity).
  apply (extraction_failure_returns_empty
           stub_tokenizer stub_generate stub_batch_decode long_text).
  - intros c e Hin Hc. rewrite Hs in Hin.
    apply elem_of_cons in Hin as [-> | Hin].
    + vm_compute in Hc. discriminate.
    + apply list_elem_of_singleton in Hin as ->.
      vm_compute in Hc. injection Hc as <-. reflexivity.
  - exists "b", (OtherException "RuntimeError"). split.
    + rewrite Hs. apply elem_of_cons. right. apply elem_of_cons. by left.
    + vm_compute. reflexivity.
Defined.

End PipelineFacts.

Module Neo4jFacts.
Import Neo4j.

Lemma wf_empty : wf empty_store.
Proof.
  split; simpl.
  - intros n Hn. by apply elem_of_nil in Hn.
  - constructor.
  - intros x. lia.
  - intros a b ty. lia.
Qed.

Lemma new_entity_matches db x y :
  node_matches "Entity" "name" y (new_entity db x) = bool_decide (x = y).
Proof.
  unfold node_matches, new_entity; simpl.
  apply bool_decide_ext. rewrite lookup_singleton_eq. split.
  - intros [_ H]. congruence.
  - intros ->. split; [set_solver | done].
Qed.

Lemma filter_nil_length {A} (f : A -> bool) l :
  length (List.filter f l) <= 1 ->
  List.filter f l = [] \/ exists x, List.filter f l = [x].
Proof.
  destruct (List.filter f l) as [|x [|y r]]; simpl; intros H;
    [by left | right; by exists x | lia].
Qed.

(** What [MERGE (x:Entity {name: ..})] does under the invariant: it binds the
    one entity of that name, which it creates when there is none. *)
Lemma merge_node_cases db x :
  wf db ->
  (exists n, List.filter (node_matches "Entity" "name" x) (nodes db) = [n]
             /\ merge_node "Entity" "name" x db = (db, [node_id n]))
  \/ (List.filter (node_matches "Entity" "name" x) (nodes db) = []
      /\ merge_node "Entity" "name" x db
         = (Store (nodes db ++ [new_entity db x]) (rels db) (S (next_id db)),
            [next_id db])).
Proof.
  intros Hwf. unfold merge_node.
  destruct (filter_nil_length _ _ (wf_names db Hwf x)) as [E | [n E]];
    rewrite E; [right | left; exists n]; auto.
Qed.

Lemma wf_add_entity db x :
  wf db ->
  List.filter (node_matches "Entity" "name" x) (nodes db) = [] ->
  wf (Store (nodes db ++ [new_entity db x]) (rels db) (S (next_id db))).
Proof.
  intros [Hids Hnd Hnames Hrels] Hnone. split; simpl.
  - intros n Hn. apply elem_of_app in Hn as [Hn | Hn].
    + apply Hids in Hn. lia.
    + apply list_elem_of_singleton in Hn as ->. simpl. lia.
  - rewrite map_app. simpl. apply NoDup_app. split; [done|]. split.
    + intros i Hi Hi'. apply list_elem_of_singleton in Hi' as ->.
      apply list_elem_of_fmap in Hi as [n [Hn Hin]].
      apply Hids in Hin. lia.
    + apply NoDup_singleton.
  - intros y. rewrite List.filter_app, length_app. simpl.
    rewrite new_entity_matches. case_bool_decide as Hxy; simpl.
    + subst y. rewrite Hnone. simpl. lia.
    + specialize (Hnames y). lia.
  - exact Hrels.
Qed.

Lemma filter_add_entity db x y :
  List.filter (node_matches "Entity" "name" y) (nodes db ++ [new_entity db x])
  = List.filter (node_matches "Entity" "name" y) (nodes db)
    ++ (if bool_decide (x = y) then [new_entity db x] else []).
Proof.
  rewrite List.filter_app. simpl. rewrite new_entity_matches.
  by case_bool_decide.
Qed.

(** What the closing [MERGE] does on one row. *)
Lemma merge_rel_present ty db row :
  existsb (rel_matches row.1 row.2 "RELATION" "type" ty) (rels db) = true ->
  merge_rel "RELATION" "type" ty db row = db.
Proof. intros H. unfold merge_rel. by rewrite H. Qed.

Lemma rel_matches_new a b ty a' b' ty' :
  rel_matches a' b' "RELATION" "type" ty' (Rel a b "RELATION" {[ "type" := ty ]})
  = bool_decide (a = a' /\ b = b' /\ ty = ty').
Proof.
  unfold rel_matches; simpl. apply bool_decide_ext.
  rewrite lookup_singleton_eq. split.
  - intros (-> & -> & _ & H). by injection H as ->.
  - by intros (-> & -> & ->).
Qed.

Lemma existsb_filter_nil {A} (f : A -> bool) l :
  existsb f l = false -> List.filter f l = [].
Proof.
  induction l as [|x l IH]; simpl; [done|].
  destruct (f x); simpl; [done | exact IH].
Qed.

Lemma existsb_filter_length {A} (f : A -> bool) l :
  existsb f l = true -> 1 <= length (List.filter f l).
Proof.
  induction l as [|x l IH]; simpl; [done|].
  destruct (f x); simpl; [lia | exact IH].
Qed.

Lemma merge_rel_wf ty db row :
  wf db ->
  wf (merge_rel "RELATION" "type" ty db row)
  /\ nodes (merge_rel "RELATION" "type" ty db row) = nodes db
  /\ existsb (rel_matches row.1 row.2 "RELATION" "type" ty)
             (rels (merge_rel "RELATION" "type" ty db row)) = true.
Proof.
  intros Hwf. unfold merge_rel.
  destruct (existsb _ (rels db)) eqn:E; [done|].
  destruct Hwf as [Hids Hnd Hnames Hrels]. simpl. split; [|split; [done|]].
  - split; simpl; try done.
    intros a b ty'. rewrite List.filter_app, length_app. simpl.
    rewrite rel_matches_new. case_bool_decide as Hk; simpl.
    + destruct Hk as (<- & <- & <-).
      rewrite (existsb_filter_nil _ _ E). simpl. lia.
    + specialize (Hrels a b ty'). lia.
  - rewrite existsb_app. simpl. rewrite rel_matches_new.
    rewrite bool_decide_true by done. by rewrite orb_true_r.
Qed.

(** [MERGE] of an entity name under the invariant: one binding, the
    invariant kept, the relationships and the other entities untouched. *)
Lemma merge_node_spec x db :
  wf db ->
  exists db' n,
    merge_node "Entity" "name" x db = (db', [node_id n])
    /\ wf db'
    /\ List.filter (node_matches "Entity" "name" x) (nodes db') = [n]
    /\ rels db' = rels db
    /\ (forall y m,
          List.filter (node_matches "Entity" "name" y) (nodes db) = [m] ->
          List.filter (node_matches "Entity" "name" y) (nodes db') = [m]).
Proof.
  intros Hwf.
  destruct (merge_node_cases db x Hwf) as [[n [E M]] | [E M]].
  - exists db, n. by split_and!.
  - eexists _, (new_entity db x). split; [exact M|].
    split; [by apply wf_add_entity|]. simpl.
    split; [by rewrite filter_add_entity, E, bool_decide_true|].
    split; [done|].
    intros y m Hy. rewrite filter_add_entity, Hy.
    case_bool_decide as Hxy; [|done]. subst y. congruence.
Qed.

(** The statement changes nothing in a store that holds the triple. *)
Lemma upsert_present h t ty db :
  present h t ty db -> upsert h t ty db = db.
Proof.
  intros (na & nb & Ha & Hb & Hr).
  unfold upsert, merge_node. rewrite Ha. simpl.
  unfold merge_second, merge_node. simpl. rewrite Hb. simpl.
  by apply merge_rel_present.
Qed.

(** The statement keeps the invariant and leaves the triple in the store. *)
Lemma upsert_wf h t ty db :
  wf db -> wf (upsert h t ty db) /\ present h t ty (upsert h t ty db).
Proof.
  intros Hwf.
  destruct (merge_node_spec h db Hwf) as (db1 & na & M1 & Hwf1 & Ha1 & _ & _).
  destruct (merge_node_spec t db1 Hwf1)
    as (db2 & nb & M2 & Hwf2 & Hb2 & _ & Hkeep).
  specialize (Hkeep h na Ha1).
  unfold upsert. rewrite M1. simpl. unfold merge_second. simpl.
  rewrite M2. simpl.
  destruct (merge_rel_wf ty db2 (node_id na, node_id nb) Hwf2)
    as (Hwf3 & Hnodes & Hrel).
  split; [done|]. exists na, nb. by rewrite Hnodes.
Qed.

Lemma store_all_wf ts db : wf db -> wf (store_all ts db).
Proof.
  revert db; induction ts as [|t ts IH]; intros db Hwf; [done|].
  simpl. apply IH. by apply upsert_wf.
Qed.

(** In a store that holds the entity [na] as the only one named [name], the
    ids of the entities of that name are the id of [na]. *)
Lemma is_entity_unique name db na id :
  List.filter (node_matches "Entity" "name" name) (nodes db) = [na] ->
  is_entity name db id = Nat.eqb (node_id na) id.
Proof.
  intros Hf. unfold is_entity.
  apply eq_true_iff_eq. rewrite existsb_exists. split.
  - intros (n & Hin & Hn). apply andb_true_iff in Hn as [Hid Hm].
    assert (Hin' : In n (List.filter (node_matches "Entity" "name" name)
                                     (nodes db)))
      by (apply filter_In; by split).
    rewrite Hf in Hin'. destruct Hin' as [-> | []]. exact Hid.
  - intros Hid. exists na. rewrite Hid. simpl.
    assert (Hin' : In na (List.filter (node_matches "Entity" "name" name)
                                      (nodes db)))
      by (rewrite Hf; by left).
    by apply filter_In in Hin'.
Qed.

(** Under the invariant, a store that holds the triple holds it once. *)
Lemma present_counts h t ty db :
  wf db -> present h t ty db ->
  count_entities h db = 1 /\ count_entities t db = 1
  /\ count_edges h t ty db = 1.
Proof.
  intros Hwf (na & nb & Ha & Hb & Hr).
  unfold count_entities, count_edges. rewrite Ha, Hb.
  split; [done|]. split; [done|].
  rewrite (List.filter_ext (edge_matches h t ty db)
             (rel_matches (node_id na) (node_id nb) "RELATION" "type" ty)).
  - pose proof (wf_rels db Hwf (node_id na) (node_id nb) ty).
    pose proof (existsb_filter_length _ _ Hr). lia.
  - intros r. unfold edge_matches, rel_matches.
    rewrite (is_entity_unique h db na _ Ha), (is_entity_unique t db nb _ Hb).
    apply eq_true_iff_eq.
    rewrite !andb_true_iff, !Nat.eqb_eq, !bool_decide_eq_true. intuition congruence.
Qed.

Lemma iter_store_triple t db n :
  wf db ->
  Nat.iter (S n) (store_triple t) db = store_triple t db.
Proof.
  intros Hwf. induction n as [|n IH]; [done|].
  change (Nat.iter (S (S n)) (store_triple t) db)
    with (store_triple t (Nat.iter (S n) (store_triple t) db)).
  rewrite IH. apply upsert_present. by apply upsert_wf.
Qed.

(** C2: in a store built by earlier upserts, upserting one triple N >= 1
    times leaves exactly one entity named head, exactly one entity named
    tail and exactly one edge keyed (head, tail, type); the store after N
    upserts is the store after the first, and one more upsert returns it
    unchanged, so nothing is added and no stored property is overwritten. *)
Theorem upsert_same_triple_idempotent
    (earlier : list Decoder.triplet) (t : Decoder.triplet) (N : nat) :
  1 <= N ->
  let db := Nat.iter N (store_triple t) (store_all earlier empty_store) in
  count_entities (Decoder.head t) db = 1
  /\ count_entities (Decoder.tail t) db = 1
  /\ count_edges (Decoder.head t) (Decoder.tail t) (Decoder.type t) db = 1
  /\ db = store_triple t (store_all earlier empty_store)
  /\ store_triple t db = db.
Proof.
  intros HN. destruct N as [|n]; [lia|]. cbv zeta.
  assert (Hwf : wf (store_all earlier empty_store))
    by apply store_all_wf, wf_empty.
  rewrite iter_store_triple by done.
  destruct (upsert_wf (Decoder.head t) (Decoder.tail t) (Decoder.type t) _ Hwf)
    as [Hwf' Hp].
  destruct (present_counts _ _ _ _ Hwf' Hp) as (H1 & H2 & H3).
  repeat split; try done.
  by apply upsert_present.
Qed.

Example upsert_paris_twice :
  store_triple (Decoder.Triplet "Paris" "capital_of" "France")
    (store_triple (Decoder.Triplet "Paris" "capital_of" "France") empty_store)
  = Store [ Node 0 {[ "Entity" ]} {[ "name" := "Paris" ]};
            Node 1 {[ "Entity" ]} {[ "name" := "France" ]} ]
          [ Rel 0 1 "RELATION" {[ "type" := "capital_of" ]} ]
          2.
Proof. vm_compute. reflexivity. Qed.

Example upsert_shared_entity :
  let db := store_all [ Decoder.Triplet "rain" "has effect" "flood";
                        Decoder.Triplet "rain" "has effect" "mud";
                        Decoder.Triplet "rain" "has cause" "flood" ] empty_store in
  count_entities "rain" db = 1 /\ length (nodes db) = 3
  /\ length (rels db) = 3.
Proof. vm_compute. auto. Qed.

Lemma upsert_same_triple_idempotent_witness :
  let db := Nat.iter 3 (store_triple (Decoder.Triplet "rain" "has effect" "flood"))
              (store_all [Decoder.Triplet "rain" "has cause" "cloud"] empty_store) in
  count_entities "rain" db = 1
  /\ count_entities "flood" db = 1
  /\ count_edges "rain" "flood" "has effect" db = 1
  /\ db = store_triple (Decoder.Triplet "rain" "has effect" "flood")
            (store_all [Decoder.Triplet "rain" "has cause" "cloud"] empty_store)
  /\ store_triple (Decoder.Triplet "rain" "has effect" "flood") db = db.
Proof.
  apply (upsert_same_triple_idempotent
           [Decoder.Triplet "rain" "has cause" "cloud"]
           (Decoder.Triplet "rain" "has effect" "flood") 3).
  lia.
Defined.

End Neo4jFacts.

Module ClusteringFacts.
Import Py Json Nx Clustering.

Example create_graph_two_edges :
  edges_of (create_graph (sample_data [sample_rel 1 2; sample_rel 2 3])) = Some 2.
Proof. vm_compute. reflexivity. Qed.

Example create_graph_same_edge_twice :
  edges_of (create_graph (sample_data [sample_rel 1 2; sample_rel 2 1])) = Some 1.
Proof. vm_compute. reflexivity. Qed.

Example create_graph_self_loop :
  edges_of (create_graph (sample_data [sample_rel 1 1; sample_rel 2 3])) = Some 2.
Proof. vm_compute. reflexivity. Qed.

Example create_graph_dangling :
  edges_of (create_graph (sample_data [sample_rel 1 2; sample_rel 1 9;
                                       sample_rel 8 2])) = Some 1.
Proof. vm_compute. reflexivity. Qed.

Example create_graph_no_file : create_graph JNull = Raise TypeError.
Proof. reflexivity. Qed.

Example dangling_sample :
  dangling [sample_node 1; sample_node 2; sample_node 3] (sample_rel 1 9) = true
  /\ dangling [sample_node 1; sample_node 2; sample_node 3] (sample_rel 8 2) = true
  /\ dangling [sample_node 1; sample_node 2; sample_node 3] (sample_rel 1 2) = false.
Proof. vm_compute. auto. Qed.

Example without_dangling_sample :
  without_dangling (sample_data [sample_rel 1 2; sample_rel 1 9; sample_rel 8 2])
  = sample_data [sample_rel 1 2].
Proof. vm_compute. reflexivity. Qed.

(** A relationship without "end" is skipped like the others when its start
    is no node, and raises when its start is one. *)
Example dangling_start_only :
  create_graph (sample_data [JObj {[ "start" := JInt 9 ]}])
  = create_graph (sample_data [])
  /\ create_graph (sample_data [JObj {[ "start" := JInt 1 ]}])
     = Raise (KeyError "end").
Proof. vm_compute. auto. Qed.

(** *** Membership and the node dict *)

Lemma has_node_true G v :
  has_node G v = true
  <-> exists k, hash_of v = Some k /\ k ∈ dom (_node G).
Proof.
  unfold has_node. destruct (hash_of v) as [k|].
  - rewrite bool_decide_eq_true, <- elem_of_dom. naive_solver.
  - naive_solver.
Qed.

Lemma add_node_dom n attr G G' :
  add_node n attr G = Ok G' ->
  exists k, hash_of n = Some k /\ dom (_node G') = {[ k ]} ∪ dom (_node G).
Proof.
  unfold add_node. destruct (hash_of n) as [k|]; [|done].
  destruct (_node G !! k) as [old|] eqn:E.
  - intros [= <-]. exists k. split; [done|]. simpl. by rewrite dom_insert_L.
  - destruct k; [done| |]; intros [= <-]; eexists; (split; [done|]);
      simpl; by rewrite dom_insert_L.
Qed.

Lemma add_one_node_dom G node G' :
  add_one_node G node = Ok G' ->
  exists k, id_key node = Some k /\ dom (_node G') = {[ k ]} ∪ dom (_node G).
Proof.
  unfold add_one_node, id_key.
  destruct (getitem node "id") as [v|]; [|done]. simpl.
  destruct (getitem node "labels") as [l|]; [|done]. simpl.
  destruct (getitem node "properties") as [p|]; [|done]. simpl.
  destruct (as_kwargs p) as [kw|]; [|done]. simpl.
  case_bool_decide; [done|]. apply add_node_dom.
Qed.

Lemma add_nodes_dom node_list G G' :
  for_each add_one_node node_list G = Ok G' ->
  dom (_node G') = dom (_node G) ∪ declared_ids node_list.
Proof.
  unfold declared_ids.
  revert G; induction node_list as [|node rest IH]; intros G; simpl.
  - intros [= <-]. set_solver.
  - destruct (add_one_node G node) as [G1|] eqn:E1; [|done]. simpl.
    intros Hrest.
    destruct (add_one_node_dom G node G1 E1) as (k & Hk & Hdom).
    rewrite (IH _ Hrest), Hdom, Hk. simpl. set_solver.
Qed.

(** *** Edges between present end points *)

Lemma ensure_node_present G v :
  has_node G v = true ->
  exists k, hash_of v = Some k /\ ensure_node v G = Ok (k, G).
Proof.
  unfold has_node, ensure_node. destruct (hash_of v) as [k|]; [|done].
  rewrite bool_decide_eq_true. intros [old Hold]. exists k.
  by rewrite Hold.
Qed.

Lemma add_edge_present G u v attr :
  has_node G u = true -> has_node G v = true ->
  exists G', add_edge u v attr G = Ok G' /\ _node G' = _node G.
Proof.
  intros Hu Hv. unfold add_edge.
  destruct (ensure_node_present G u Hu) as (ku & _ & ->). simpl.
  destruct (ensure_node_present G v Hv) as (kv & _ & ->). simpl.
  eexists. split; [reflexivity | done].
Qed.

(** The second loop never changes the node dict. *)
Lemma add_one_rel_nodes G rel G' :
  add_one_rel G rel = Ok G' -> _node G' = _node G.
Proof.
  unfold add_one_rel.
  destruct (getitem rel "start") as [s|]; [|done]. simpl.
  destruct (has_node G s) eqn:Hs; [|by intros [= <-]].
  destruct (getitem rel "end") as [e|]; [|done]. simpl.
  destruct (has_node G e) eqn:He; [|by intros [= <-]].
  destruct (getitem rel "type") as [ty|]; [|done]. simpl.
  destruct (getitem rel "properties") as [p|]; [|done]. simpl.
  destruct (getitem p "type") as [nm|]; [|done]. simpl.
  destruct (add_edge_present G s e {[ "type" := ty; "name" := nm ]} Hs He)
    as (G2 & -> & Hn).
  by intros [= <-].
Qed.

Lemma add_rels_nodes rels G G' :
  for_each add_one_rel rels G = Ok G' -> _node G' = _node G.
Proof.
  revert G; induction rels as [|rel rest IH]; intros G; simpl.
  - by intros [= <-].
  - destruct (add_one_rel G rel) as [G1|] eqn:E1; [|done]. simpl.
    intros Hrest. rewrite (IH _ Hrest). exact (add_one_rel_nodes G rel G1 E1).
Qed.

Lemma has_node_same_nodes G G' v :
  _node G' = _node G -> has_node G' v = has_node G v.
Proof. unfold has_node. by intros ->. Qed.

(** *** Dangling relationships *)

Lemma has_node_declared node_list G v :
  dom (_node G) = declared_ids node_list ->
  has_node G v = declared node_list v.
Proof.
  intros Hdom. unfold has_node, declared.
  destruct (hash_of v) as [k|]; [|done].
  apply bool_decide_ext. by rewrite <- Hdom, elem_of_dom.
Qed.

Lemma dangling_skipped node_list G rel :
  dom (_node G) = declared_ids node_list ->
  dangling node_list rel = true ->
  add_one_rel G rel = Ok G.
Proof.
  intros Hdom. unfold dangling, add_one_rel.
  destruct (getitem rel "start") as [s|]; [|done]. simpl.
  rewrite (has_node_declared node_list G s Hdom).
  destruct (declared node_list s); [|done].
  destruct (getitem rel "end") as [e|]; [|done]. simpl.
  rewrite (has_node_declared node_list G e Hdom).
  by destruct (declared node_list e).
Qed.

Lemma for_each_without_dangling node_list rels G :
  dom (_node G) = declared_ids node_list ->
  for_each add_one_rel
    (List.filter (fun rel => negb (dangling node_list rel)) rels) G
  = for_each add_one_rel rels G.
Proof.
  revert G; induction rels as [|rel rest IH]; intros G Hdom; simpl; [done|].
  destruct (dangling node_list rel) eqn:Hd; simpl.
  - rewrite (dangling_skipped node_list G rel Hdom Hd). simpl. by apply IH.
  - destruct (add_one_rel G rel) as [G1|] eqn:E1; [|done]. simpl.
    apply IH. by rewrite (add_one_rel_nodes G rel G1 E1).
Qed.

Lemma create_graph_without_dangling graph_data :
  create_graph (without_dangling graph_data) = create_graph graph_data.
Proof.
  destruct graph_data as [| | | | |m]; try done. simpl.
  destruct (m !! "nodes") as [[| | | |node_list|]|] eqn:En; try done.
  destruct (m !! "relationships") as [[| | | |rel_list|]|] eqn:Er; try done.
  unfold create_graph, add_nodes, add_relationships, getitem.
  rewrite (lookup_insert_ne _ "relationships" "nodes") by done.
  rewrite lookup_insert_eq, En, Er. simpl.
  destruct (for_each add_one_node node_list Nx.empty_graph) as [G0|] eqn:E0;
    [|reflexivity].
  simpl. apply for_each_without_dangling.
  rewrite (add_nodes_dom _ _ _ E0). simpl. set_solver.
Qed.

(** C8: a relationship whose start id or end id is not the id of a declared
    node is skipped without raising: met at any point of the second loop it
    leaves the graph, hence its edge count, as it is; and the graph built
    from a description is the graph built from that description without its
    dangling relationships. *)
Theorem dangling_relationships_are_skipped :
  (forall node_list rels_before G0 G rel,
      for_each add_one_node node_list Nx.empty_graph = Ok G0 ->
      for_each add_one_rel rels_before G0 = Ok G ->
      dangling node_list rel = true ->
      add_one_rel G rel = Ok G)
  /\ (forall graph_data,
        create_graph (without_dangling graph_data) = create_graph graph_data)
  /\ (forall graph_data,
        edges_of (create_graph (without_dangling graph_data))
        = edges_of (create_graph graph_data)).
Proof.
  split; [|split; [exact create_graph_without_dangling|]].
  - intros node_list rels_before G0 G rel Hn Hr Hd.
    apply (dangling_skipped node_list); [|done].
    rewrite (add_rels_nodes _ _ _ Hr), (add_nodes_dom _ _ _ Hn). simpl.
    set_solver.
  - intros graph_data. by rewrite create_graph_without_dangling.
Qed.

Lemma dangling_relationships_are_skipped_witness :
  let node_list := [sample_node 1; sample_node 2; sample_node 3] in
  let G0 := result_value (for_each add_one_node node_list Nx.empty_graph) in
  let G := result_value (for_each add_one_rel [sample_rel 1 2] G0) in
  add_one_rel G (sample_rel 1 9) = Ok G.
Proof.
  intros node_list G0 G.
  apply (proj1 dangling_relationships_are_skipped
           node_list [sample_rel 1 2] G0 G (sample_rel 1 9));
    vm_compute; reflexivity.
Defined.

(** *** A relationship without a type property *)

(** Between two present end points, a relationship whose properties lack
    "type" raises [KeyError('type')], whether or not the relationship itself
    has a "type". *)
Lemma add_one_rel_missing_type G rel start end_ properties :
  getitem rel "start" = Ok start -> has_node G start = true ->
  getitem rel "end" = Ok end_ -> has_node G end_ = true ->
  getitem rel "properties" = Ok (JObj properties) ->
  properties !! "type" = None ->
  add_one_rel G rel = Raise (KeyError "type").
Proof.
  intros Hs Hcs He Hce Hp Hnone. unfold add_one_rel.
  rewrite Hs. simpl. rewrite Hcs, He. simpl. rewrite Hce.
  destruct rel as [| | | | |m]; try done. unfold getitem in *.
  destruct (m !! "type") as [ty|]; [|done]. simpl.
  rewrite Hp. simpl. by rewrite Hnone.
Qed.

Lemma for_each_app {A} (body : graph -> A -> result graph) xs ys G G1 :
  for_each body xs G = Ok G1 ->
  for_each body (xs ++ ys) G = for_each body ys G1.
Proof.
  revert G; induction xs as [|x xs IH]; intros G; simpl.
  - by intros [= <-].
  - destruct (body G x) as [G'|]; [|done]. simpl. apply IH.
Qed.

(** C10: when the nodes were added and the relationships before it were
    processed, a relationship whose start and end ids are both nodes and
    whose properties map lacks "type" makes [create_graph] raise
    [KeyError('type')]; it is neither skipped nor given a default name. *)
Theorem missing_type_property_raises_KeyError
    (graph_data : json) (rels_before rels_after : list json) (rel : json)
    (G0 G1 : graph) (start end_ : json) (properties : gmap string json) :
  add_nodes graph_data = Ok G0 ->
  getitem graph_data "relationships"
  = Ok (JArr (rels_before ++ rel :: rels_after)) ->
  for_each add_one_rel rels_before G0 = Ok G1 ->
  getitem rel "start" = Ok start -> has_node G0 start = true ->
  getitem rel "end" = Ok end_ -> has_node G0 end_ = true ->
  getitem rel "properties" = Ok (JObj properties) ->
  properties !! "type" = None ->
  create_graph graph_data = Raise (KeyError "type").
Proof.
  intros Hn Hrels Hbefore Hs Hcs He Hce Hp Hnone.
  unfold create_graph, add_relationships. rewrite Hn. simpl.
  rewrite Hrels. simpl.
  rewrite (for_each_app _ _ _ _ _ Hbefore). simpl.
  pose proof (add_rels_nodes _ _ _ Hbefore) as Hsame.
  rewrite (add_one_rel_missing_type G1 rel start end_ properties); try done.
  - by rewrite (has_node_same_nodes G0 G1).
  - by rewrite (has_node_same_nodes G0 G1).
Qed.

Lemma missing_type_property_raises_KeyError_witness :
  create_graph (sample_data [sample_rel 1 2; untyped_rel 2 3; sample_rel 1 3])
  = Raise (KeyError "type").
Proof.
  pose (d := sample_data [sample_rel 1 2; untyped_rel 2 3; sample_rel 1 3]).
  pose (G0 := result_value (add_nodes d)).
  pose (G1 := result_value (for_each add_one_rel [sample_rel 1 2] G0)).
  apply (missing_type_property_raises_KeyError d
           [sample_rel 1 2] [sample_rel 1 3] (untyped_rel 2 3) G0 G1
           (JInt 2) (JInt 3) {[ "since" := JInt 2020 ]});
    vm_compute; reflexivity.
Defined.

End ClusteringFacts.

(** ** More on the decoder *)

Module DecoderMore.
Import Decoder Words DecoderFacts.

Lemma append_assoc (a b c : string) : (a +:+ b) +:+ c = a +:+ (b +:+ c).
Proof.
  induction a as [|x a IH]; [done|].
  rewrite !FilterFacts.append_cons. by rewrite IH.
Qed.

Lemma append_empty_r (a : string) : a +:+ "" = a.
Proof.
  induction a as [|x a IH]; [done|].
  rewrite FilterFacts.append_cons. by rewrite IH.
Qed.

(** *** Without <obj> nothing is emitted *)

Lemma step_no_obj st token :
  String.eqb token "<obj>" = false ->
  relation st = "" -> current st <> cur_o ->
  relation (step st token) = "" /\ current (step st token) <> cur_o
  /\ triplets (step st token) = triplets st.
Proof.
  intros Hobj Hrel Hcur. unfold step. rewrite Hobj, Hrel. simpl.
  destruct (String.eqb token "<triplet>"); [done|].
  destruct (String.eqb token "<subj>"); [done|].
  destruct (current st) eqn:E; simpl; rewrite ?E; done.
Qed.

Lemma run_no_obj tokens st :
  Forall (fun token => String.eqb token "<obj>" = false) tokens ->
  relation st = "" -> current st <> cur_o ->
  relation (run tokens st) = "" /\ triplets (run tokens st) = triplets st.
Proof.
  intros Hall. revert st.
  induction Hall as [|tok tokens Htok _ IH]; intros st Hrel Hcur; [done|].
  destruct (step_no_obj st tok Htok Hrel Hcur) as (H1 & H2 & H3).
  destruct (IH (step st tok) H1 H2) as [H4 H5].
  simpl. by rewrite H4, H5, H3.
Qed.

(** X1: a text none of whose tokens is <obj> yields no triple, whatever
    other markers and words it holds: only text after <obj> reaches the
    relation accumulator, and every emission needs it non-empty. *)
Theorem no_obj_marker_no_triplet (text : string) :
  Forall (fun token => String.eqb token "<obj>" = false) (tokens_of text) ->
  extract_triplets text = [].
Proof.
  intros Hall. unfold extract_triplets, finish.
  destruct (run_no_obj (tokens_of text) init Hall) as [Hrel Htr]; [done..|].
  rewrite Hrel, Htr. simpl. by rewrite andb_false_r.
Qed.

Lemma no_obj_marker_no_triplet_witness :
  extract_triplets "<s><triplet> rain <subj> flood has effect <triplet> x</s>"
  = [].
Proof.
  apply no_obj_marker_no_triplet. vm_compute.
  repeat constructor.
Defined.

(** *** Text before the first marker *)

(** X2: the tokens that precede the first marker are discarded: the decoder
    returns what it returns without them. *)
Theorem leading_text_is_discarded (before rest : list string) :
  Forall (fun token => is_marker token = false) before ->
  finish (run (before ++ rest) init) = finish (run rest init).
Proof.
  intros Hall. f_equal. unfold run. rewrite fold_left_app. f_equal.
  induction Hall as [|tok before Htok _ IH] using Forall_ind; [done|].
  simpl. rewrite (step_text init tok Htok). exact IH.
Qed.

Lemma leading_text_is_discarded_witness :
  finish (run (["The"; "report"; "says"]
               ++ ["<triplet>"; "rain"; "<subj>"; "flood"; "<obj>"; "cause"])
              init)
  = finish (run ["<triplet>"; "rain"; "<subj>"; "flood"; "<obj>"; "cause"] init).
Proof.
  apply leading_text_is_discarded. repeat constructor.
Defined.

(** *** How many triples *)

Lemma step_emits_only_at_emitters st token :
  is_emitter token = false -> triplets (step st token) = triplets st.
Proof.
  unfold is_emitter, step. intros H.
  apply orb_false_iff in H as [-> ->].
  destruct (String.eqb token "<obj>"); [done|].
  by destruct (current st).
Qed.

Lemma run_emitter_bound tokens st :
  length (triplets (run tokens st))
  <= length (triplets st) + length (List.filter is_emitter tokens).
Proof.
  revert st; induction tokens as [|tok tokens IH]; intros st; simpl; [lia|].
  etrans; [apply IH|].
  destruct (is_emitter tok) eqn:E; simpl.
  - destruct (step_emits_at_most_one st tok) as [-> | ->];
      rewrite ?length_app; simpl; lia.
  - rewrite (step_emits_only_at_emitters st tok E). lia.
Qed.

(** X3: a text yields at most one triple per <triplet> or <subj> token, plus
    the closing one. *)
Theorem triplet_count_bound (text : string) :
  length (extract_triplets text)
  <= length (List.filter is_emitter (tokens_of text)) + 1.
Proof.
  unfold extract_triplets, finish.
  pose proof (run_emitter_bound (tokens_of text) init) as H. simpl in H.
  destruct (_ && _); rewrite ?length_app; simpl; lia.
Qed.

(** *** The shape of the fields *)

Lemma no_space_app a b : no_space (a +:+ b) = no_space a && no_space b.
Proof.
  induction a as [|c a IH]; [done|].
  rewrite FilterFacts.append_cons. simpl. rewrite IH. by rewrite andb_assoc.
Qed.

Lemma is_word_snoc cur c :
  PyStr.is_empty cur = true \/ is_word cur = true ->
  PyStr.isspace c = false ->
  is_word (cur +:+ String c "") = true.
Proof.
  intros Hcur Hc. unfold is_word. rewrite no_space_app. simpl. rewrite Hc. simpl.
  destruct Hcur as [He | Hw].
  - destruct cur; [done | discriminate].
  - unfold is_word in Hw. apply andb_true_iff in Hw as [Hne Hns].
    rewrite Hns. by destruct cur.
Qed.

Lemma split_from_words cur s :
  PyStr.is_empty cur = true \/ is_word cur = true ->
  Forall (fun tok => is_word tok = true) (PyStr.split_from cur s).
Proof.
  revert cur; induction s as [|c s IH]; intros cur Hcur; simpl.
  - destruct (PyStr.is_empty cur) eqn:E; [constructor|].
    destruct Hcur as [?|Hw]; [congruence|]. by repeat constructor.
  - destruct (PyStr.isspace c) eqn:Hc.
    + destruct (PyStr.is_empty cur) eqn:E.
      * apply IH. by left.
      * destruct Hcur as [?|Hw]; [congruence|].
        constructor; [done|]. apply IH. by left.
    + apply IH. right. by apply is_word_snoc.
Qed.

(** [split] returns words. *)
Lemma split_words s : Forall (fun tok => is_word tok = true) (PyStr.split s).
Proof. apply split_from_words. by left. Qed.

Lemma lstrip_word t r :
  is_word t = true -> PyStr.lstrip (t +:+ r) = t +:+ r.
Proof.
  destruct t as [|c t]; [done|]. unfold is_word. simpl.
  intros H. apply andb_true_iff in H as [H _].
  apply negb_true_iff in H. rewrite FilterFacts.append_cons. simpl.
  by rewrite H.
Qed.

Lemma rstrip_ends_in_text s : ends_in_text s = true -> PyStr.rstrip s = s.
Proof.
  induction s as [|c s IH]; [done|]. simpl.
  destruct s as [|d s].
  - intros H. apply negb_true_iff in H. simpl. by rewrite H.
  - intros H. rewrite (IH H). simpl. by rewrite andb_false_r.
Qed.

Lemma ends_in_text_app a b :
  ends_in_text b = true -> ends_in_text (a +:+ b) = true.
Proof.
  intros Hb. induction a as [|c a IH]; [done|].
  rewrite FilterFacts.append_cons. simpl.
  destruct (a +:+ b) eqn:E; [discriminate IH | exact IH].
Qed.

Lemma word_ends_in_text t : is_word t = true -> ends_in_text t = true.
Proof.
  unfold is_word. induction t as [|c t IH]; [done|]. simpl.
  intros H. apply andb_true_iff in H as [Hc Ht].
  destruct t as [|d t]; [done|]. apply IH. exact Ht.
Qed.

Lemma concat_words_cons t rest :
  String.concat " " (t :: rest) = t +:+ spaced rest.
Proof.
  revert t; induction rest as [|r rest IH]; intros t.
  - simpl. by rewrite append_empty_r.
  - change (String.concat " " (t :: r :: rest))
      with (t +:+ " " +:+ String.concat " " (r :: rest)).
    by rewrite IH.
Qed.

Lemma spaced_ends_in_text t rest :
  Forall (fun tok => is_word tok = true) (t :: rest) ->
  ends_in_text (t +:+ spaced rest) = true.
Proof.
  revert t; induction rest as [|r rest IH]; intros t Hall.
  - simpl. rewrite append_empty_r. apply word_ends_in_text.
    by inversion Hall.
  - simpl. apply ends_in_text_app, ends_in_text_app. apply IH.
    by inversion Hall.
Qed.

(** Stripping an accumulator gives its words joined by single spaces. *)
Lemma strip_spaced toks :
  Forall (fun tok => is_word tok = true) toks ->
  PyStr.strip (spaced toks) = String.concat " " toks.
Proof.
  destruct toks as [|t rest]; [done|]. intros Hall.
  rewrite concat_words_cons. unfold PyStr.strip.
  change (spaced (t :: rest)) with (String " " (t +:+ spaced rest)).
  change (PyStr.lstrip (String " " (t +:+ spaced rest)))
    with (PyStr.lstrip (t +:+ spaced rest)).
  rewrite lstrip_word by (by inversion Hall).
  by apply rstrip_ends_in_text, spaced_ends_in_text.
Qed.

Lemma spaced_snoc toks tok :
  spaced (toks ++ [tok]) = spaced toks +:+ " " +:+ tok.
Proof.
  induction toks as [|t toks IH]; simpl.
  - by rewrite append_empty_r.
  - rewrite IH. by rewrite !append_assoc.
Qed.

Lemma accumulator_empty : is_accumulator "".
Proof. by exists []. Qed.

Lemma accumulator_add s tok :
  is_word tok = true -> is_accumulator s -> is_accumulator (s +:+ " " +:+ tok).
Proof.
  intros Hw (toks & Hall & ->). exists (toks ++ [tok]). split.
  - apply Forall_app. by repeat constructor.
  - by rewrite spaced_snoc.
Qed.

Lemma accumulator_phrase s : is_accumulator s -> is_phrase (PyStr.strip s).
Proof.
  intros (toks & Hall & ->). exists toks. split; [done|]. by apply strip_spaced.
Qed.

Lemma accumulator_text s :
  is_accumulator s -> PyStr.is_empty s = false -> PyStr.strip s <> "".
Proof.
  intros (toks & Hall & ->) Hne. rewrite strip_spaced by done.
  destruct toks as [|t rest]; [done|]. rewrite concat_words_cons.
  inversion Hall as [|? ? Ht _]; subst. by destruct t.
Qed.

Lemma pending_well_formed st :
  loop_invariant st -> PyStr.is_empty (relation st) = false ->
  well_formed (pending st).
Proof.
  intros (Hs & Hr & Ho & _) Hne. unfold well_formed, pending. simpl.
  split; [by apply accumulator_phrase|].
  split; [by apply accumulator_phrase|].
  split; [by apply accumulator_text|].
  by apply accumulator_phrase.
Qed.

Lemma step_invariant st token :
  is_word token = true -> loop_invariant st -> loop_invariant (step st token).
Proof.
  intros Hw Hinv. pose proof Hinv as (Hs & Hr & Ho & Ht). unfold step.
  assert (Hemit : PyStr.is_empty (relation st) = false ->
                  Forall well_formed (triplets st ++ [pending st])).
  { intros Hne. apply Forall_app. split; [done|].
    constructor; [|constructor]. by apply pending_well_formed. }
  repeat case_match; simpl;
    repeat split; simpl;
    auto using accumulator_empty, accumulator_add;
    apply Hemit; by destruct (PyStr.is_empty (relation st)).
Qed.

Lemma run_invariant tokens st :
  Forall (fun tok => is_word tok = true) tokens ->
  loop_invariant st -> loop_invariant (run tokens st).
Proof.
  intros Hall. revert st.
  induction Hall as [|tok tokens Htok _ IH]; intros st Hinv; [done|].
  simpl. apply IH. by apply step_invariant.
Qed.

(** X4: every field of every triple the decoder returns is a phrase: words
    separated by single spaces, without white space at either end; the type
    is never empty.  Head and tail can be empty: a marker emits on a
    non-empty relation alone. *)
Theorem extracted_fields_are_phrases :
  (forall text, Forall well_formed (extract_triplets text))
  /\ extract_triplets "<triplet> <obj> r <subj> <triplet>"
     = [ Triplet "" "r" ""; Triplet "" "r" "" ].
Proof.
  split; [|vm_compute; reflexivity].
  intros text. unfold extract_triplets, finish.
  assert (Hinv : loop_invariant (run (tokens_of text) init)).
  { apply run_invariant; [apply split_words|].
    repeat split; try apply accumulator_empty. constructor. }
  pose proof Hinv as (_ & _ & _ & Ht).
  destruct (negb (PyStr.is_empty (subject _))); simpl; [|done].
  destruct (PyStr.is_empty (relation _)) eqn:Hr; simpl; [done|].
  destruct (negb (PyStr.is_empty (object_ _))); simpl; [|done].
  apply Forall_app. split; [done|].
  constructor; [|constructor]. by apply pending_well_formed.
Qed.

End DecoderMore.

(** ** More on the extraction pipeline *)

Module PipelineMore.
Import Py Decoder Filter Pipeline PipelineSpec PipelineFacts.

(** *** Chunking *)

Lemma substring_all s : String.substring 0 (String.length s) s = s.
Proof. induction s as [|c s IH]; [done|]. simpl. by rewrite IH. Qed.

Lemma substring_take_drop n s :
  String.substring 0 n s +:+ String.substring n (String.length s - n) s = s.
Proof.
  revert s; induction n as [|n IH]; intros s.
  - rewrite Nat.sub_0_r, substring_all. by destruct s.
  - destruct s as [|c s]; [done|]. simpl.
    rewrite FilterFacts.append_cons. by rewrite IH.
Qed.

Lemma substring_drop_length n s :
  String.length (String.substring n (String.length s - n) s)
  = String.length s - n.
Proof.
  revert s; induction n as [|n IH]; intros s.
  - by rewrite Nat.sub_0_r, substring_all.
  - destruct s as [|c s]; [done|]. simpl. apply IH.
Qed.

Lemma substring_take_length n s :
  String.length (String.substring 0 n s) = Nat.min n (String.length s).
Proof.
  revert s; induction n as [|n IH]; intros s.
  - by destruct s.
  - destruct s as [|c s]; [done|]. simpl. by rewrite IH.
Qed.

Lemma slices_from_S fuel n s :
  PyStr.slices_from (S fuel) n s
  = if PyStr.is_empty s then []
    else String.substring 0 n s
         :: PyStr.slices_from fuel n
              (String.substring n (String.length s - n) s).
Proof. reflexivity. Qed.

Lemma slices_from_spec fuel n s :
  0 < n -> String.length s <= fuel ->
  String.concat "" (PyStr.slices_from fuel n s) = s
  /\ Forall (fun chunk => 0 < String.length chunk <= n)
            (PyStr.slices_from fuel n s).
Proof.
  intros Hn. revert s; induction fuel as [|fuel IH]; intros s Hlen.
  - destruct s; [by split | simpl in Hlen; lia].
  - rewrite slices_from_S.
    destruct (PyStr.is_empty s) eqn:Hne; [destruct s; by split|].
    assert (Hpos : 0 < String.length s) by (destruct s; [done | simpl; lia]).
    destruct (IH (String.substring n (String.length s - n) s)) as [Hcat Hall].
    { rewrite substring_drop_length. lia. }
    split.
    + etrans; [|exact (substring_take_drop n s)].
      destruct (PyStr.slices_from fuel n _) as [|x xs] eqn:E.
      * simpl in Hcat. rewrite <- Hcat. simpl.
        by rewrite DecoderMore.append_empty_r.
      * change (String.concat "" (String.substring 0 n s :: x :: xs))
          with (String.substring 0 n s +:+ "" +:+ String.concat "" (x :: xs)).
        by rewrite Hcat.
    + constructor; [|done]. rewrite substring_take_length. lia.
Qed.

(** X5: chunking neither loses nor adds a character, and no chunk is empty
    or longer than the chunk size: the chunks of a text, put end to end, are
    the text. *)
Theorem slices_partition_text (n : nat) (text : string) :
  0 < n ->
  String.concat "" (PyStr.slices n text) = text
  /\ Forall (fun chunk => 0 < String.length chunk <= n) (PyStr.slices n text).
Proof. intros Hn. by apply slices_from_spec. Qed.

Lemma slices_partition_text_witness :
  String.concat "" (PyStr.slices 1000 long_text) = long_text
  /\ Forall (fun chunk => 0 < String.length chunk <= 1000)
            (PyStr.slices 1000 long_text).
Proof. apply slices_partition_text. lia. Defined.

(** *** The call as a whole *)

Section Extraction.
Context {model_inputs generated_tokens : Type}.
Variable tokenizer : string -> result model_inputs.
Variable generate : model_inputs -> result generated_tokens.
Variable batch_decode : generated_tokens -> result (list string).

Abbreviation decode_chunk := (decode_chunk tokenizer generate batch_decode).
Abbreviation for_chunks := (for_chunks tokenizer generate batch_decode).

Lemma for_chunks_prefix_ok before rest acc :
  (forall c, c ∈ before -> is_Ok (decode_chunk c) = true) ->
  for_chunks (before ++ rest) acc
  = for_chunks rest
      (acc ++ flat_map (fun c => triples_of (decode_chunk c)) before).
Proof.
  revert acc; induction before as [|c0 before IH]; intros acc Hall.
  - simpl. by rewrite app_nil_r.
  - assert (H0 : is_Ok (decode_chunk c0) = true)
      by (apply Hall, elem_of_cons; by left).
    simpl. destruct (decode_chunk c0) as [found|e0]; [|done]. simpl.
    rewrite IH.
    + by rewrite <- app_assoc.
    + intros c Hc. apply Hall, elem_of_cons. by right.
Qed.

End Extraction.

(** X6: when no chunk fails, the call returns the causal triples of all
    chunks and of all candidate sentences of each chunk, in the order of
    the text; duplicates across candidates are kept. *)
Theorem extraction_success_collects_all
    {model_inputs generated_tokens : Type}
    (tokenizer : string -> result model_inputs)
    (generate : model_inputs -> result generated_tokens)
    (batch_decode : generated_tokens -> result (list string))
    (text : string) :
  (forall c, c ∈ PyStr.slices 1000 text ->
             is_Ok (Pipeline.decode_chunk tokenizer generate batch_decode c)
             = true) ->
  extract_causal_relationships tokenizer generate batch_decode text
  = Ok (causal_filter causal_keywords
          (flat_map
             (fun c => triples_of
                         (Pipeline.decode_chunk tokenizer generate
                                                batch_decode c))
             (PyStr.slices 1000 text))).
Proof.
  intros Hall. unfold extract_causal_relationships, try_body.
  rewrite <- (app_nil_r (PyStr.slices 1000 text)) at 1.
  rewrite (for_chunks_prefix_ok tokenizer generate batch_decode _ [] [] Hall).
  reflexivity.
Qed.

Lemma extraction_success_collects_all_witness :
  extract_causal_relationships stub_tokenizer stub_generate stub_batch_decode
    "aaa"
  = Ok (causal_filter causal_keywords
          (flat_map
             (fun c => triples_of
                         (Pipeline.decode_chunk stub_tokenizer stub_generate
                                                stub_batch_decode c))
             (PyStr.slices 1000 "aaa"))).
Proof.
  apply extraction_success_collects_all.
  intros c Hc. change (PyStr.slices 1000 "aaa") with ["aaa"] in Hc.
  apply list_elem_of_singleton in Hc as ->. vm_compute. reflexivity.
Defined.

(** X7: whatever the collaborators do, every triple the call returns passes
    the causal filter. *)
Theorem extraction_returns_causal_only
    {model_inputs generated_tokens : Type}
    (tokenizer : string -> result model_inputs)
    (generate : model_inputs -> result generated_tokens)
    (batch_decode : generated_tokens -> result (list string))
    (text : string) :
  Forall (fun t => accept causal_keywords t = true)
         (triples_of
            (extract_causal_relationships tokenizer generate batch_decode
                                          text)).
Proof.
  unfold extract_causal_relationships, try_body.
  destruct (Pipeline.for_chunks _ _ _ _ _) as [all|e]; simpl.
  - unfold causal_filter. apply Forall_forall. intros t Ht.
    apply list_elem_of_In, filter_In in Ht. tauto.
  - destruct (is_Exception e); constructor.
Qed.

(** X8: an exception that does not derive from [Exception] is not caught:
    raised on a chunk after chunks that were decoded, it leaves the call. *)
Theorem extraction_propagates_base_exception
    {model_inputs generated_tokens : Type}
    (tokenizer : string -> result model_inputs)
    (generate : model_inputs -> result generated_tokens)
    (batch_decode : generated_tokens -> result (list string))
    (text : string) (before after : list string) (c : string) (e : exn) :
  PyStr.slices 1000 text = before ++ c :: after ->
  (forall c', c' ∈ before ->
              is_Ok (Pipeline.decode_chunk tokenizer generate batch_decode c')
              = true) ->
  Pipeline.decode_chunk tokenizer generate batch_decode c = Raise e ->
  is_Exception e = false ->
  extract_causal_relationships tokenizer generate batch_decode text = Raise e.
Proof.
  intros Hs Hbefore Hc He. unfold extract_causal_relationships, try_body.
  rewrite Hs.
  rewrite (for_chunks_prefix_ok tokenizer generate batch_decode _ _ [] Hbefore).
  simpl. rewrite Hc. simpl. by rewrite He.
Qed.

Lemma extraction_propagates_base_exception_witness :
  extract_causal_relationships interrupted_tokenizer stub_generate
    stub_batch_decode long_text
  = Raise (BaseOnly "KeyboardInterrupt").
Proof.
  apply (extraction_propagates_base_exception
           interrupted_tokenizer stub_generate stub_batch_decode long_text
           [String.substring 0 1000 long_text] [] "b").
  - vm_compute. reflexivity.
  - intros c Hc. apply list_elem_of_singleton in Hc as ->.
    vm_compute. reflexivity.
  - vm_compute. reflexivity.
  - reflexivity.
Defined.

End PipelineMore.

(** ** More on the causal filter *)

Module FilterMore.
Import Decoder Filter FilterFacts.

Lemma accept_union kw1 kw2 t :
  accept (kw1 ∪ kw2) t = accept kw1 t || accept kw2 t.
Proof.
  apply eq_true_iff_eq. rewrite orb_true_iff, !accept_spec. split.
  - intros (k & Hk & Hs). apply elem_of_union in Hk as [Hk | Hk];
      [left | right]; by exists k.
  - intros [(k & Hk & Hs) | (k & Hk & Hs)]; exists k; split; try done;
      apply elem_of_union; auto.
Qed.

Lemma accept_singleton k t :
  accept {[ k ]} t = PyStr.contains k (PyStr.lower (type t)).
Proof.
  apply eq_true_iff_eq. rewrite accept_spec, contains_spec. split.
  - intros (k' & Hk & Hs). by apply elem_of_singleton in Hk as ->.
  - intros Hs. exists k. split; [by apply elem_of_singleton | done].
Qed.

(** *** Keywords inside keywords *)

Lemma is_substring_trans a b c :
  is_substring a b -> is_substring b c -> is_substring a c.
Proof.
  intros (p & q & ->) (pre & post & ->).
  exists (pre +:+ p), (q +:+ post).
  by rewrite !DecoderMore.append_assoc.
Qed.

(** X9: a phrase that contains a phrase of the vocabulary adds nothing to
    it: with or without the longer phrase the filter accepts the same
    triples. *)
Theorem longer_keyword_is_redundant
    (keywords : gset string) (k1 k2 : string) (t : triplet) :
  k1 ∈ keywords -> is_substring k1 k2 ->
  accept ({[ k2 ]} ∪ keywords) t = accept keywords t.
Proof.
  intros Hk1 Hsub. rewrite accept_union.
  destruct (accept {[ k2 ]} t) eqn:E; [|done]. simpl. symmetry.
  apply accept_spec. exists k1. split; [done|].
  apply accept_spec in E as (k & Hk & Hs).
  apply elem_of_singleton in Hk as ->.
  by apply (is_substring_trans k1 k2).
Qed.

Lemma longer_keyword_is_redundant_witness :
  accept ({[ "uses" ]} ∪ (causal_keywords ∖ {[ "uses" ]}))
         (Triplet "plant" "Uses" "water")
  = accept (causal_keywords ∖ {[ "uses" ]}) (Triplet "plant" "Uses" "water").
Proof.
  apply (longer_keyword_is_redundant _ "use" "uses").
  - vm_compute. reflexivity.
  - by exists "", "s".
Defined.

(** *** Capital letters *)

Lemma lower_char_idem c :
  PyStr.lower_char (PyStr.lower_char c) = PyStr.lower_char c.
Proof. destruct c as [[] [] [] [] [] [] [] []]; reflexivity. Qed.

Lemma lower_idem s : PyStr.lower (PyStr.lower s) = PyStr.lower s.
Proof.
  induction s as [|c s IH]; [done|]. simpl. by rewrite lower_char_idem, IH.
Qed.

Lemma lower_app a b : PyStr.lower (a +:+ b) = PyStr.lower a +:+ PyStr.lower b.
Proof.
  induction a as [|c a IH]; [done|].
  rewrite append_cons. simpl. by rewrite IH, append_cons.
Qed.

Lemma lower_length s : String.length (PyStr.lower s) = String.length s.
Proof. induction s as [|c s IH]; [done|]. simpl. by rewrite IH. Qed.

Lemma append_inv_length a a' b b' :
  a +:+ b = a' +:+ b' -> String.length a = String.length a' ->
  a = a' /\ b = b'.
Proof.
  revert a'; induction a as [|c a IH]; intros [|c' a'] Heq Hlen;
    try discriminate.
  - done.
  - rewrite !append_cons in Heq. injection Heq as -> Heq.
    simpl in Hlen. injection Hlen as Hlen.
    destruct (IH a' Heq Hlen) as [-> ->]. done.
Qed.

(** What occurs in a lower-cased text is lower-case. *)
Lemma substring_of_lower k s :
  is_substring k (PyStr.lower s) -> PyStr.lower k = k.
Proof.
  intros (pre & post & Hs).
  pose proof (lower_idem s) as Hid. rewrite Hs in Hid.
  rewrite !lower_app in Hid.
  apply append_inv_length in Hid as [_ Hid]; [|apply lower_length].
  apply append_inv_length in Hid as [Hk _]; [done|apply lower_length].
Qed.

(** X10: the type is lower-cased, the vocabulary is not: a phrase with a
    capital letter matches no triple, so that adding it to a vocabulary
    changes nothing. *)
Theorem capitalised_keyword_never_matches
    (keywords : gset string) (k : string) (t : triplet) :
  PyStr.lower k <> k ->
  accept {[ k ]} t = false
  /\ accept ({[ k ]} ∪ keywords) t = accept keywords t.
Proof.
  intros Hk.
  assert (E : accept {[ k ]} t = false).
  { rewrite accept_singleton. apply not_true_is_false. intros Hc.
    apply contains_spec, substring_of_lower in Hc. done. }
  split; [done|]. by rewrite accept_union, E.
Qed.

Lemma capitalised_keyword_never_matches_witness :
  accept {[ "Has effect" ]} (Triplet "rain" "Has effect" "flood") = false
  /\ accept ({[ "Has effect" ]} ∪ causal_keywords)
            (Triplet "rain" "Has effect" "flood")
     = accept causal_keywords (Triplet "rain" "Has effect" "flood").
Proof.
  apply capitalised_keyword_never_matches. vm_compute. discriminate.
Defined.

End FilterMore.

(** ** More on the graph store *)

Module StoreMore.
Import Decoder Neo4j StoreSpec Neo4jFacts.

(** *** The statement only appends *)

Lemma merge_node_appends label key val db :
  exists added,
    nodes (merge_node label key val db).1 = nodes db ++ added
    /\ length added <= 1
    /\ rels (merge_node label key val db).1 = rels db.
Proof.
  unfold merge_node. destruct (List.filter _ (nodes db)) as [|n found].
  - eexists [_]. simpl. split; [reflexivity|]. split; [lia | reflexivity].
  - exists []. simpl. rewrite app_nil_r. split; [done|]. split; [lia | done].
Qed.

Lemma created_node_matches label key val id :
  node_matches label key val (Node id {[ label ]} {[ key := val ]}) = true.
Proof.
  unfold node_matches. simpl. apply bool_decide_eq_true.
  split; [set_solver | by rewrite lookup_singleton_eq].
Qed.

(** Once an entity of the name exists, the second [MERGE] creates nothing,
    however many rows it runs for. *)
Lemma merge_second_idle label key val rows acc :
  List.filter (node_matches label key val) (nodes acc.1) <> [] ->
  (fold_left (merge_second label key val) rows acc).1 = acc.1.
Proof.
  revert acc; induction rows as [|a rows IH]; intros acc Hf; [done|].
  simpl. unfold merge_second at 2, merge_node.
  destruct (List.filter (node_matches label key val) (nodes acc.1))
    as [|n found] eqn:Ef; [done|].
  rewrite IH; simpl; [done|]. by rewrite Ef.
Qed.

Lemma merge_second_appends label key val rows acc :
  exists added,
    nodes (fold_left (merge_second label key val) rows acc).1
    = nodes acc.1 ++ added
    /\ length added <= 1
    /\ rels (fold_left (merge_second label key val) rows acc).1 = rels acc.1.
Proof.
  destruct rows as [|a rows].
  - exists []. simpl. rewrite app_nil_r. split; [done|]. split; [lia | done].
  - simpl.
    assert (Hstep : (merge_second label key val acc a).1
                    = (merge_node label key val acc.1).1)
      by (unfold merge_second; by destruct (merge_node label key val acc.1)).
    assert (Hidle : (fold_left (merge_second label key val) rows
                               (merge_second label key val acc a)).1
                    = (merge_node label key val acc.1).1).
    { rewrite merge_second_idle; [done|]. rewrite Hstep. unfold merge_node.
      destruct (List.filter (node_matches label key val) (nodes acc.1))
        as [|n found] eqn:Ef; simpl.
      - rewrite List.filter_app, Ef. simpl. by rewrite created_node_matches.
      - by rewrite Ef. }
    rewrite Hidle. apply merge_node_appends.
Qed.

Lemma merge_rel_appends ty key val rows db :
  exists added,
    rels (fold_left (merge_rel ty key val) rows db) = rels db ++ added
    /\ nodes (fold_left (merge_rel ty key val) rows db) = nodes db.
Proof.
  revert db; induction rows as [|row rows IH]; intros db.
  - exists []. simpl. by rewrite app_nil_r.
  - simpl. destruct (IH (merge_rel ty key val db row)) as (added & Hr & Hn).
    unfold merge_rel in *.
    destruct (existsb _ (rels db)); [by exists added|].
    simpl in *. eexists (_ :: added). rewrite Hr, <- app_assoc.
    split; [reflexivity | done].
Qed.

(** X11: the statement never deletes or changes what is stored: the nodes
    and relationships of the store, with their labels and properties, stay
    where they are, and at most two nodes are appended, in any store. *)
Theorem upsert_only_appends (h tl ty : string) (db : store) :
  exists new_nodes new_rels,
    nodes (upsert h tl ty db) = nodes db ++ new_nodes
    /\ rels (upsert h tl ty db) = rels db ++ new_rels
    /\ length new_nodes <= 2.
Proof.
  unfold upsert.
  destruct (merge_node_appends "Entity" "name" h db) as (n1 & Hn1 & Hl1 & Hr1).
  destruct (merge_node "Entity" "name" h db) as [db1 rows_a] eqn:E1.
  simpl in *.
  destruct (merge_second_appends "Entity" "name" tl rows_a (db1, []))
    as (n2 & Hn2 & Hl2 & Hr2).
  destruct (fold_left _ rows_a (db1, [])) as [db2 rows_ab] eqn:E2.
  simpl in *.
  destruct (merge_rel_appends "RELATION" "type" ty rows_ab db2)
    as (r3 & Hr3 & Hn3).
  exists (n1 ++ n2), r3. rewrite Hr3, Hn3, Hr2, Hr1, Hn2, Hn1.
  rewrite <- app_assoc. split; [done|]. split; [done|].
  rewrite length_app. lia.
Qed.

(** *** The store holds the triples, each once *)

Lemma nodup_ids_inj (l : list node) n m :
  NoDup (map node_id l) -> n ∈ l -> m ∈ l -> node_id n = node_id m -> n = m.
Proof.
  induction l as [|x l IH]; intros Hnd Hn Hm Hid.
  - by apply elem_of_nil in Hn.
  - simpl in Hnd. apply NoDup_cons in Hnd as [Hx Hnd].
    apply elem_of_cons in Hn as [-> | Hn]; apply elem_of_cons in Hm as [-> | Hm].
    + done.
    + exfalso. apply Hx. rewrite Hid. apply list_elem_of_fmap. by exists m.
    + exfalso. apply Hx. rewrite <- Hid. apply list_elem_of_fmap. by exists n.
    + by apply IH.
Qed.

(** The id of an entity named [h] is the id of no entity of another name. *)
Lemma is_entity_of_node db n h s :
  wf db -> n ∈ nodes db -> node_matches "Entity" "name" h n = true ->
  is_entity s db (node_id n) = bool_decide (s = h).
Proof.
  intros Hwf Hn Hm. unfold is_entity. apply eq_true_iff_eq.
  rewrite existsb_exists, bool_decide_eq_true. split.
  - intros (m & Hin & Hb). apply andb_true_iff in Hb as [Hid Hs].
    apply Nat.eqb_eq in Hid. apply list_elem_of_In in Hin.
    assert (m = n) as -> by (by apply (nodup_ids_inj (nodes db));
                             [apply (wf_nodup db Hwf)|..]).
    unfold node_matches in *. apply bool_decide_eq_true in Hs, Hm.
    destruct Hs as [_ Hs], Hm as [_ Hm]. congruence.
  - intros ->. exists n. split; [by apply list_elem_of_In|].
    by rewrite Nat.eqb_refl, Hm.
Qed.

Lemma is_entity_add_entity db x s id :
  id < next_id db ->
  is_entity s (Store (nodes db ++ [new_entity db x]) (rels db) (S (next_id db))) id
  = is_entity s db id.
Proof.
  intros Hid. unfold is_entity. simpl. rewrite existsb_app. simpl.
  assert (Nat.eqb (next_id db) id = false) as -> by (apply Nat.eqb_neq; lia).
  simpl. by rewrite !orb_false_r.
Qed.

Lemma count_edges_add_entity db x s t ty :
  ends_bound db ->
  count_edges s t ty
    (Store (nodes db ++ [new_entity db x]) (rels db) (S (next_id db)))
  = count_edges s t ty db.
Proof.
  intros Hb. unfold count_edges. simpl. f_equal.
  apply List.filter_ext_in. intros r Hr. apply list_elem_of_In in Hr.
  destruct (Hb r Hr) as [Hs He]. unfold edge_matches. simpl.
  by rewrite !is_entity_add_entity.
Qed.

(** One [MERGE] of an entity name, with all it keeps. *)
Lemma merge_node_full x db :
  wf db -> ends_bound db ->
  exists db' n,
    merge_node "Entity" "name" x db = (db', [node_id n])
    /\ wf db' /\ ends_bound db'
    /\ n ∈ nodes db' /\ node_matches "Entity" "name" x n = true
    /\ count_entities x db' = 1
    /\ (forall y, y <> x -> count_entities y db' = count_entities y db)
    /\ (forall s t ty, count_edges s t ty db' = count_edges s t ty db)
    /\ (forall m, m ∈ nodes db -> m ∈ nodes db').
Proof.
  intros Hwf Hb.
  assert (Hin : forall n, List.filter (node_matches "Entity" "name" x) (nodes db)
                          = [n] ->
                          n ∈ nodes db /\ node_matches "Entity" "name" x n = true).
  { intros n E.
    assert (In n (List.filter (node_matches "Entity" "name" x) (nodes db)))
      as Hn by (rewrite E; by left).
    apply filter_In in Hn as [Hn Hm]. by apply list_elem_of_In in Hn. }
  destruct (merge_node_cases db x Hwf) as [[n [E M]] | [E M]].
  - exists db, n. destruct (Hin n E) as [Hn Hm].
    unfold count_entities. rewrite E. by split_and!.
  - eexists _, (new_entity db x). split; [exact M|].
    split; [by apply wf_add_entity|].
    split.
    { intros r Hr. simpl in *. destruct (Hb r Hr). lia. }
    split; [simpl; apply elem_of_app; right; by apply list_elem_of_singleton|].
    split; [by rewrite new_entity_matches, bool_decide_true|].
    unfold count_entities. simpl.
    split; [by rewrite filter_add_entity, E, bool_decide_true|].
    split.
    { intros y Hy. rewrite filter_add_entity, bool_decide_false by congruence.
      by rewrite app_nil_r. }
    split; [intros s t ty; by apply count_edges_add_entity|].
    intros m Hm. apply elem_of_app. by left.
Qed.

(** The closing [MERGE] for the entities [na] and [nb]. *)
Lemma merge_rel_full ty db na nb h tl :
  wf db -> ends_bound db ->
  na ∈ nodes db -> node_matches "Entity" "name" h na = true ->
  nb ∈ nodes db -> node_matches "Entity" "name" tl nb = true ->
  let db' := merge_rel "RELATION" "type" ty db (node_id na, node_id nb) in
  ends_bound db'
  /\ (forall x, count_entities x db' = count_entities x db)
  /\ (forall s t ty', ~ (s = h /\ t = tl /\ ty' = ty) ->
                      count_edges s t ty' db' = count_edges s t ty' db).
Proof.
  intros Hwf Hb Hna Hma Hnb Hmb. unfold merge_rel. simpl.
  destruct (existsb _ (rels db)) eqn:E; [done|]. simpl.
  split.
  { intros r Hr. simpl in *. apply elem_of_app in Hr as [Hr | Hr].
    - by apply Hb.
    - apply list_elem_of_singleton in Hr as ->. simpl.
      split; by apply (wf_ids db Hwf). }
  split; [done|].
  intros s t ty' Hne. unfold count_edges. simpl.
  rewrite List.filter_app, length_app. simpl.
  assert (Hnew : edge_matches s t ty'
                   (Store (nodes db)
                      (rels db ++ [Rel (node_id na) (node_id nb) "RELATION"
                                       {[ "type" := ty ]}])
                      (next_id db))
                   (Rel (node_id na) (node_id nb) "RELATION" {[ "type" := ty ]})
                 = false).
  { unfold edge_matches. simpl.
    change (is_entity s (Store (nodes db) _ (next_id db)) (node_id na))
      with (is_entity s db (node_id na)).
    change (is_entity t (Store (nodes db) _ (next_id db)) (node_id nb))
      with (is_entity t db (node_id nb)).
    rewrite (is_entity_of_node db na h s Hwf Hna Hma).
    rewrite (is_entity_of_node db nb tl t Hwf Hnb Hmb).
    rewrite lookup_singleton_eq.
    apply not_true_is_false. intros Ht.
    rewrite !andb_true_iff, !bool_decide_eq_true in Ht.
    destruct Ht as [[-> ->] [_ Hty]]. apply Hne. split_and!; congruence. }
  rewrite Hnew. simpl. by rewrite Nat.add_0_r.
Qed.

(** What one upsert does to the counts. *)
Lemma upsert_counts h tl ty db :
  wf db -> ends_bound db ->
  ends_bound (upsert h tl ty db)
  /\ (forall x, count_entities x (upsert h tl ty db)
                = if bool_decide (x = h \/ x = tl) then 1
                  else count_entities x db)
  /\ (forall s t ty', count_edges s t ty' (upsert h tl ty db)
                      = if bool_decide (s = h /\ t = tl /\ ty' = ty) then 1
                        else count_edges s t ty' db).
Proof.
  intros Hwf Hb.
  destruct (upsert_wf h tl ty db Hwf) as [Hwf' Hp].
  destruct (present_counts h tl ty _ Hwf' Hp) as (Hc1 & Hc2 & Hc3).
  destruct (merge_node_full h db Hwf Hb)
    as (db1 & na & M1 & Hwf1 & Hb1 & Hna & Hma & Hca & Hoa & Hea & Hka).
  destruct (merge_node_full tl db1 Hwf1 Hb1)
    as (db2 & nb & M2 & Hwf2 & Hb2 & Hnb & Hmb & Hcb & Hob & Heb & Hkb).
  destruct (merge_rel_full ty db2 na nb h tl Hwf2 Hb2 (Hkb na Hna) Hma Hnb Hmb)
    as (Hb3 & Hn3 & He3).
  assert (Hup : upsert h tl ty db
                = merge_rel "RELATION" "type" ty db2 (node_id na, node_id nb)).
  { unfold upsert. rewrite M1. simpl. unfold merge_second. simpl.
    by rewrite M2. }
  split; [by rewrite Hup|]. split.
  - intros x. case_bool_decide as Hx.
    + by destruct Hx as [-> | ->].
    + rewrite Hup, Hn3, Hob, Hoa; [done|..]; intros ->; apply Hx; auto.
  - intros s t ty'. case_bool_decide as Hk.
    + by destruct Hk as (-> & -> & ->).
    + by rewrite Hup, He3, Heb, Hea.
Qed.

Lemma store_all_counts ts db :
  wf db -> ends_bound db ->
  (forall x, count_entities x (store_all ts db)
             = if bool_decide (x ∈ names_of ts) then 1
               else count_entities x db)
  /\ (forall s t ty, count_edges s t ty (store_all ts db)
                     = if bool_decide (Triplet s ty t ∈ ts) then 1
                       else count_edges s t ty db).
Proof.
  revert db; induction ts as [|t0 ts IH]; intros db Hwf Hb.
  - split; [intros x | intros s t ty].
    + rewrite bool_decide_false; [done|]. unfold names_of. simpl. set_solver.
    + rewrite bool_decide_false; [done|]. by intros ?%elem_of_nil.
  - destruct (upsert_wf (head t0) (tail t0) (type t0) db Hwf) as [Hwf' _].
    destruct (upsert_counts (head t0) (tail t0) (type t0) db Hwf Hb)
      as (Hb' & Hn & He).
    destruct (IH _ Hwf' Hb') as [IHn IHe].
    change (store_all (t0 :: ts) db) with (store_all ts (store_triple t0 db)).
    unfold store_triple. split.
    + intros x. rewrite IHn, Hn.
      assert (Hiff : x ∈ names_of (t0 :: ts)
                     <-> x ∈ names_of ts \/ x = head t0 \/ x = tail t0)
        by (unfold names_of; simpl; set_solver).
      repeat case_bool_decide; try done; tauto.
    + intros s t ty. rewrite IHe, He.
      assert (Hiff : Triplet s ty t ∈ t0 :: ts
                     <-> Triplet s ty t ∈ ts
                         \/ (s = head t0 /\ t = tail t0 /\ ty = type t0)).
      { rewrite elem_of_cons. destruct t0 as [h0 y0 l0]. simpl.
        split; intros [H | H]; auto.
        - injection H as -> -> ->. auto.
        - destruct H as (-> & -> & ->). auto. }
      repeat case_bool_decide; try done; tauto.
Qed.

Lemma store_counts_from_empty (ts : list triplet) :
  (forall x, count_entities x (store_all ts empty_store)
             = if bool_decide (x ∈ names_of ts) then 1 else 0)
  /\ (forall s t ty, count_edges s t ty (store_all ts empty_store)
                     = if bool_decide (Triplet s ty t ∈ ts) then 1 else 0).
Proof.
  apply (store_all_counts ts empty_store wf_empty).
  intros r Hr. by apply elem_of_nil in Hr.
Qed.

(** A triple that was upserted is in the store. *)
Lemma stored_is_present ts h ty t :
  Triplet h ty t ∈ ts -> present h t ty (store_all ts empty_store).
Proof.
  intros Hin. destruct (store_counts_from_empty ts) as [Hn He].
  assert (Hh : count_entities h (store_all ts empty_store) = 1).
  { rewrite Hn, bool_decide_true; [done|]. unfold names_of.
    apply elem_of_list_to_set, list_elem_of_In, in_flat_map.
    exists (Triplet h ty t). split; [by apply list_elem_of_In | by left]. }
  assert (Ht : count_entities t (store_all ts empty_store) = 1).
  { rewrite Hn, bool_decide_true; [done|]. unfold names_of.
    apply elem_of_list_to_set, list_elem_of_In, in_flat_map.
    exists (Triplet h ty t). split; [by apply list_elem_of_In|].
    right. by left. }
  assert (Hr : count_edges h t ty (store_all ts empty_store) = 1)
    by (by rewrite He, bool_decide_true).
  unfold count_entities in Hh, Ht. unfold count_edges in Hr.
  destruct (List.filter _ (nodes (store_all ts empty_store)))
    as [|na [|? ?]] eqn:Ea; try discriminate.
  destruct (List.filter (node_matches "Entity" "name" t)
                        (nodes (store_all ts empty_store)))
    as [|nb [|? ?]] eqn:Eb; try discriminate.
  destruct (List.filter (edge_matches h t ty (store_all ts empty_store))
                        (rels (store_all ts empty_store)))
    as [|r [|? ?]] eqn:Er; try discriminate.
  exists na, nb. split; [done|]. split; [done|].
  assert (Hf : In r (List.filter (edge_matches h t ty (store_all ts empty_store))
                                 (rels (store_all ts empty_store))))
    by (rewrite Er; by left).
  apply filter_In in Hf as [Hrin Hm].
  apply existsb_exists. exists r. split; [done|].
  unfold edge_matches in Hm. rewrite !andb_true_iff in Hm.
  destruct Hm as [[H1 H2] H3].
  rewrite (is_entity_unique h _ na _ Ea) in H1.
  rewrite (is_entity_unique t _ nb _ Eb) in H2.
  apply Nat.eqb_eq in H1, H2. apply bool_decide_eq_true in H3 as [H3 H4].
  unfold rel_matches. apply bool_decide_eq_true. by split_and!.
Qed.

(** Upserting again triples that were upserted changes nothing. *)
Lemma store_all_again ts us :
  (forall u, u ∈ us -> u ∈ ts) ->
  store_all us (store_all ts empty_store) = store_all ts empty_store.
Proof.
  induction us as [|u us IH]; intros Hsub; [done|].
  change (store_all (u :: us) (store_all ts empty_store))
    with (store_all us (store_triple u (store_all ts empty_store))).
  unfold store_triple. rewrite upsert_present.
  - apply IH. intros x Hx. apply Hsub, elem_of_cons. by right.
  - destruct u as [h ty t]. simpl. apply stored_is_present.
    apply Hsub, elem_of_cons. by left.
Qed.

(** X12: a store filled by upserts from the empty store holds exactly the
    triples upserted, each once: one entity for every name that occurs as a
    head or a tail and none for another name, one edge for every triple and
    none for another key, however often and in whatever order the triples
    came. *)
Theorem store_holds_each_triple_once (ts : list triplet) :
  (forall x, count_entities x (store_all ts empty_store)
             = if bool_decide (x ∈ names_of ts) then 1 else 0)
  /\ (forall s t ty, count_edges s t ty (store_all ts empty_store)
                     = if bool_decide (Triplet s ty t ∈ ts) then 1 else 0).
Proof.
  apply (store_all_counts ts empty_store wf_empty).
  intros r Hr. by apply elem_of_nil in Hr.
Qed.

End StoreMore.

(** ** [Visualizer.process] *)

Module ProcessFacts.
Import Py Decoder Filter Pipeline PipelineSpec Neo4j StoreSpec Process.

Lemma names_of_app ts us : names_of (ts ++ us) = names_of ts ∪ names_of us.
Proof. unfold names_of. rewrite flat_map_app. set_solver. Qed.

Lemma types_of_app ts us : types_of (ts ++ us) = types_of ts ∪ types_of us.
Proof. unfold types_of. rewrite map_app. set_solver. Qed.

Lemma store_all_app ts us d :
  store_all (ts ++ us) d = store_all us (store_all ts d).
Proof. unfold store_all. by rewrite fold_left_app. Qed.

(** The sets and the store after the triples [ts] went through the inner
    loop. *)
Lemma store_relationships_spec ts self :
  fold_left store_relationship ts self
  = Visualizer (articles self)
               (names_of ts ∪ entity self)
               (types_of ts ∪ relation self)
               (store_all ts (db self)).
Proof.
  revert self; induction ts as [|t ts IH]; intros self.
  - destruct self. simpl. f_equal; unfold names_of, types_of; set_solver.
  - simpl. rewrite IH. simpl. f_equal; unfold names_of, types_of; simpl;
      set_solver.
Qed.

Section Collaborators.
Context {model_inputs generated_tokens : Type}.
Variable tokenizer : string -> result model_inputs.
Variable generate : model_inputs -> result generated_tokens.
Variable batch_decode : generated_tokens -> result (list string).

Abbreviation extract :=
  (extract_causal_relationships tokenizer generate batch_decode).
Abbreviation stored_for := (stored_for tokenizer generate batch_decode).

Abbreviation no_article_raises :=
  (no_article_raises tokenizer generate batch_decode).

Lemma for_articles_spec todo self :
  no_article_raises todo ->
  for_articles tokenizer generate batch_decode todo self
  = Ok (Visualizer (articles self)
                   (names_of (flat_map stored_for todo) ∪ entity self)
                   (types_of (flat_map stored_for todo) ∪ relation self)
                   (store_all (flat_map stored_for todo) (db self))).
Proof.
  revert self; induction todo as [|a todo IH]; intros self Hall.
  - destruct self. simpl. f_equal. f_equal; unfold names_of, types_of;
      set_solver.
  - assert (Hrest : no_article_raises todo).
    { intros b text Hb. apply Hall, elem_of_cons. by right. }
    assert (Hstep : process_article tokenizer generate batch_decode self a
                    = Ok (fold_left store_relationship (stored_for a) self)).
    { unfold process_article, Process.stored_for.
      destruct (content a) as [text|] eqn:Ec; [|done].
      destruct (PyStr.is_empty text) eqn:Ee; [done|].
      assert (H : is_Ok (extract text) = true)
        by (apply (Hall a text); [apply elem_of_cons; by left | done..]).
      by destruct (extract text). }
    simpl. rewrite Hstep. simpl. rewrite (IH _ Hrest).
    rewrite store_relationships_spec. simpl.
    rewrite names_of_app, types_of_app, store_all_app.
    f_equal. f_equal; set_solver.
Qed.

(** A failure of the loop over chunks is the failure of a chunk. *)
Lemma for_chunks_raise_inv chunks acc e :
  for_chunks tokenizer generate batch_decode chunks acc = Raise e ->
  exists c, c ∈ chunks
            /\ decode_chunk tokenizer generate batch_decode c = Raise e.
Proof.
  revert acc; induction chunks as [|c0 chunks IH]; intros acc; [done|].
  simpl. destruct (decode_chunk _ _ _ c0) as [found|e0] eqn:E0; simpl.
  - intros H. destruct (IH _ H) as (c & Hc & Hr). exists c.
    split; [apply elem_of_cons; by right | done].
  - intros [= ->]. exists c0. split; [apply elem_of_cons; by left | done].
Qed.

Lemma extract_returns text :
  (forall c e, decode_chunk tokenizer generate batch_decode c = Raise e ->
               is_Exception e = true) ->
  is_Ok (extract text) = true.
Proof.
  intros Hexc. unfold extract_causal_relationships, try_body.
  destruct (for_chunks _ _ _ _ _) as [all|e] eqn:E; [done|]. simpl.
  apply for_chunks_raise_inv in E as (c & _ & Hc).
  by rewrite (Hexc c e Hc).
Qed.

Lemma process_article_mirrors self a self' :
  mirrors self ->
  process_article tokenizer generate batch_decode self a = Ok self' ->
  mirrors self'.
Proof.
  intros Hm. unfold process_article.
  destruct (content a) as [text|]; [|by intros [= <-]].
  destruct (PyStr.is_empty text); [by intros [= <-]|].
  destruct (extract text) as [found|e]; [|done]. simpl. intros [= <-].
  rewrite store_relationships_spec.
  destruct Hm as (ts & He & Hr & Hd). exists (ts ++ found). simpl.
  rewrite names_of_app, types_of_app, store_all_app, He, Hr, Hd.
  split_and!; [set_solver.. | done].
Qed.

Lemma for_articles_mirrors todo self self' :
  mirrors self ->
  for_articles tokenizer generate batch_decode todo self = Ok self' ->
  mirrors self'.
Proof.
  revert self; induction todo as [|a todo IH]; intros self Hm.
  - by intros [= <-].
  - simpl.
    destruct (process_article _ _ _ self a) as [self1|e] eqn:E; [|done].
    simpl. apply IH. by apply (process_article_mirrors self a).
Qed.

End Collaborators.

Lemma mirrors_fresh : mirrors fresh.
Proof. by exists []. Qed.

(** X13: whenever [process] returns, on a fresh [Visualizer] over an empty
    store, the sets in memory and the store agree: a name is in
    [self.entity] exactly when the store holds an entity of that name, and
    then it holds one; the end points and the type of every stored edge are
    in [self.entity] and [self.relation]. *)
Theorem process_keeps_sets_and_store_in_step
    {model_inputs generated_tokens : Type}
    (tokenizer : string -> result model_inputs)
    (generate : model_inputs -> result generated_tokens)
    (batch_decode : generated_tokens -> result (list string))
    (file : file_read) (self' : visualizer) :
  process tokenizer generate batch_decode file fresh = Ok self' ->
  (forall x, x ∈ entity self' <-> count_entities x (db self') = 1)
  /\ (forall x, x ∉ entity self' <-> count_entities x (db self') = 0)
  /\ (forall s t ty, count_edges s t ty (db self') = 1 ->
                     s ∈ entity self' /\ t ∈ entity self'
                     /\ ty ∈ relation self').
Proof.
  intros Hp.
  assert (Hm : mirrors self').
  { unfold process in Hp.
    destruct (read_json file fresh) as [self1|e] eqn:Er; [|done]. simpl in Hp.
    apply (for_articles_mirrors tokenizer generate batch_decode
             (articles self1) self1); [|done].
    destruct file; simpl in Er; try discriminate; injection Er as <-;
      by exists []. }
  destruct Hm as (ts & -> & -> & ->).
  destruct (StoreMore.store_counts_from_empty ts) as [Hn He].
  split_and!.
  - intros x. rewrite Hn. case_bool_decide; split; done.
  - intros x. rewrite Hn. case_bool_decide; split; done.
  - intros s t ty. rewrite He. case_bool_decide as Hin; [|done]. intros _.
    unfold names_of, types_of.
    split_and!.
    + apply elem_of_list_to_set, list_elem_of_In, in_flat_map.
      exists (Triplet s ty t). split; [by apply list_elem_of_In | by left].
    + apply elem_of_list_to_set, list_elem_of_In, in_flat_map.
      exists (Triplet s ty t). split; [by apply list_elem_of_In|].
      right. by left.
    + apply elem_of_list_to_set, list_elem_of_fmap.
      by exists (Triplet s ty t).
Qed.

Lemma process_keeps_sets_and_store_in_step_witness :
  let self' :=
    Visualizer sample_articles {[ "rain"; "flood" ]} {[ "has effect" ]}
      (Store [ Node 0 {[ "Entity" ]} {[ "name" := "rain" ]};
               Node 1 {[ "Entity" ]} {[ "name" := "flood" ]} ]
             [ Rel 0 1 "RELATION" {[ "type" := "has effect" ]} ] 2) in
  (forall x, x ∈ entity self' <-> count_entities x (db self') = 1)
  /\ (forall x, x ∉ entity self' <-> count_entities x (db self') = 0)
  /\ (forall s t ty, count_edges s t ty (db self') = 1 ->
                     s ∈ entity self' /\ t ∈ entity self'
                     /\ ty ∈ relation self').
Proof.
  apply (process_keeps_sets_and_store_in_step
           stub_tokenizer stub_generate stub_batch_decode
           (Loaded sample_articles)).
  vm_compute. reflexivity.
Defined.

Lemma process_isolates_failures_aux
    {model_inputs generated_tokens : Type}
    (tokenizer : string -> result model_inputs)
    (generate : model_inputs -> result generated_tokens)
    (batch_decode : generated_tokens -> result (list string))
    (loaded : list article) :
  (forall c e, decode_chunk tokenizer generate batch_decode c = Raise e ->
               is_Exception e = true) ->
  process tokenizer generate batch_decode (Loaded loaded) fresh
  = Ok (Visualizer loaded
          (names_of (flat_map (Process.stored_for tokenizer generate
                                                  batch_decode) loaded))
          (types_of (flat_map (Process.stored_for tokenizer generate
                                                  batch_decode) loaded))
          (store_all (flat_map (Process.stored_for tokenizer generate
                                                   batch_decode) loaded)
                     empty_store)).
Proof.
  intros Hexc. unfold process. simpl.
  rewrite for_articles_spec.
  - simpl. f_equal. f_equal; set_solver.
  - intros a text _ _ _. by apply extract_returns.
Qed.



(** X15: running [process] a second time over the same articles, from the
    file or, when the file has gone, from the articles kept in memory,
    changes neither the sets nor the store. *)
Theorem process_again_changes_nothing
    {model_inputs generated_tokens : Type}
    (tokenizer : string -> result model_inputs)
    (generate : model_inputs -> result generated_tokens)
    (batch_decode : generated_tokens -> result (list string))
    (loaded : list article) (self1 : visualizer) :
  (forall c e, decode_chunk tokenizer generate batch_decode c = Raise e ->
               is_Exception e = true) ->
  process tokenizer generate batch_decode (Loaded loaded) fresh = Ok self1 ->
  process tokenizer generate batch_decode (Loaded loaded) self1 = Ok self1
  /\ process tokenizer generate batch_decode FileNotFound self1 = Ok self1.
Proof.
  intros Hexc H1.
  rewrite (process_isolates_failures_aux tokenizer generate batch_decode
             loaded Hexc) in H1.
  injection H1 as <-.
  set (stored := flat_map (Process.stored_for tokenizer generate batch_decode)
                          loaded).
  assert (Hrun : for_articles tokenizer generate batch_decode loaded
                   (Visualizer loaded (names_of stored) (types_of stored)
                               (store_all stored empty_store))
                 = Ok (Visualizer loaded (names_of stored) (types_of stored)
                                  (store_all stored empty_store))).
  { rewrite for_articles_spec
      by (intros a text _ _ _; by apply extract_returns).
    simpl. fold stored. rewrite StoreMore.store_all_again by done.
    f_equal. f_equal; set_solver. }
  split; unfold process; simpl; exact Hrun.
Qed.

Lemma process_again_changes_nothing_witness :
  let self1 :=
    Visualizer sample_articles
      (names_of [Triplet "rain" "has effect" "flood"])
      (types_of [Triplet "rain" "has effect" "flood"])
      (store_all [Triplet "rain" "has effect" "flood"] empty_store) in
  process stub_tokenizer stub_generate stub_batch_decode
    (Loaded sample_articles) self1 = Ok self1
  /\ process stub_tokenizer stub_generate stub_batch_decode FileNotFound self1
     = Ok self1.
Proof.
  apply (process_again_changes_nothing stub_tokenizer stub_generate
           stub_batch_decode sample_articles).
  - intros c e Hc. unfold decode_chunk, stub_tokenizer, stub_generate in Hc.
    simpl in Hc. destruct (String.prefix "b" c); [|discriminate].
    simpl in Hc. by injection Hc as <-.
  - vm_compute. reflexivity.
Defined.

End ProcessFacts.

(** ** More on [create_graph] *)

Module GraphMore.
Import Py Json Nx Clustering GraphSpec ClusteringFacts.

(** *** The invariant of the graph *)

Lemma graph_ok_empty : graph_ok empty_graph.
Proof.
  split; [done | | done].
  intros u v d. unfold edge_data. simpl. by rewrite lookup_empty.
Qed.

Lemma edge_data_new_node G k attr u v :
  graph_ok G -> _node G !! k = None ->
  edge_data (Graph (<[k := attr]> (_node G)) (<[k := ∅]> (_adj G))) u v
  = edge_data G u v.
Proof.
  intros Hok Hk. unfold edge_data. simpl.
  assert (Hadj : _adj G !! k = None).
  { apply not_elem_of_dom. rewrite (ok_dom G Hok). by apply not_elem_of_dom. }
  destruct (decide (k = u)) as [<- | Hne].
  - by rewrite lookup_insert_eq, Hadj.
  - by rewrite lookup_insert_ne.
Qed.

Lemma add_node_ok n attr G G' :
  graph_ok G -> add_node n attr G = Ok G' -> graph_ok G'.
Proof.
  intros Hok. unfold add_node.
  destruct (hash_of n) as [k|]; [|done].
  destruct (_node G !! k) as [old|] eqn:E.
  - intros [= <-]. destruct Hok as [Hd Hn Hs]. split; simpl.
    + rewrite dom_insert_L, Hd. apply elem_of_dom_2 in E. set_solver.
    + intros u v d Hd'. rewrite dom_insert_L. apply elem_of_union. right.
      by apply (Hn u v d).
    + exact Hs.
  - assert (Hnew : graph_ok (Graph (<[k := attr]> (_node G))
                                   (<[k := ∅]> (_adj G)))).
    { split; simpl.
      - rewrite !dom_insert_L. by rewrite (ok_dom G Hok).
      - intros u v d. rewrite edge_data_new_node by done. intros Hd.
        rewrite dom_insert_L. apply elem_of_union. right.
        by apply (ok_nbrs G Hok u v d).
      - intros u v. rewrite !edge_data_new_node by done.
        apply (ok_sym G Hok). }
    destruct k; [done|..]; by intros [= <-].
Qed.

Lemma add_one_node_ok G node G' :
  graph_ok G -> add_one_node G node = Ok G' -> graph_ok G'.
Proof.
  intros Hok. unfold add_one_node.
  destruct (getitem node "id") as [v|]; [|done]. simpl.
  destruct (getitem node "labels") as [l|]; [|done]. simpl.
  destruct (getitem node "properties") as [p|]; [|done]. simpl.
  destruct (as_kwargs p) as [kw|]; [|done]. simpl.
  case_bool_decide; [done|]. by apply add_node_ok.
Qed.

Lemma add_nodes_ok node_list G G' :
  graph_ok G -> for_each add_one_node node_list G = Ok G' -> graph_ok G'.
Proof.
  revert G; induction node_list as [|node rest IH]; intros G Hok; simpl.
  - by intros [= <-].
  - destruct (add_one_node G node) as [G1|] eqn:E1; [|done]. simpl.
    apply IH. exact (add_one_node_ok G node G1 Hok E1).
Qed.

(** [add_edge] between two nodes that are present. *)
Lemma add_edge_linked G u v ku kv attr :
  hash_of u = Some ku -> hash_of v = Some kv ->
  has_node G u = true -> has_node G v = true ->
  add_edge u v attr G
  = Ok (linked ku kv (attr ∪ default ∅ (edge_data G ku kv)) G).
Proof.
  intros Hu Hv Hcu Hcv. unfold add_edge.
  destruct (ensure_node_present G u Hcu) as (ku' & Hu' & ->). simpl.
  destruct (ensure_node_present G v Hcv) as (kv' & Hv' & ->). simpl.
  rewrite Hu in Hu'. rewrite Hv in Hv'.
  injection Hu' as <-. injection Hv' as <-. reflexivity.
Qed.

Lemma alter_insert_lookup
    (adj : gmap hashable (gmap hashable (gmap string json))) k j d a b :
  is_Some (adj !! k) ->
  (alter (fun nbrs => <[j := d]> nbrs) k adj !! a ≫= fun nbrs => nbrs !! b)
  = if bool_decide (a = k /\ b = j) then Some d
    else adj !! a ≫= fun nbrs => nbrs !! b.
Proof.
  intros [n Hk]. destruct (decide (a = k)) as [-> | Hak].
  - rewrite lookup_alter_eq, Hk. simpl.
    destruct (decide (b = j)) as [-> | Hbj].
    + by rewrite lookup_insert_eq, bool_decide_true.
    + rewrite lookup_insert_ne by done.
      rewrite bool_decide_false by (intros [_ ?]; done). done.
  - rewrite lookup_alter_ne by done.
    rewrite bool_decide_false by (intros [? _]; done). done.
Qed.

(** The edges after [add_edge]: the one between the two nodes, under both
    directions, and the others as before. *)
Lemma edge_data_linked G ku kv d a b :
  ku ∈ dom (_adj G) -> kv ∈ dom (_adj G) ->
  edge_data (linked ku kv d G) a b
  = if bool_decide ((a = ku /\ b = kv) \/ (a = kv /\ b = ku)) then Some d
    else edge_data G a b.
Proof.
  intros Hku Hkv. apply elem_of_dom in Hku. apply elem_of_dom in Hkv.
  unfold edge_data, linked. simpl.
  rewrite alter_insert_lookup.
  - rewrite alter_insert_lookup by done.
    repeat case_bool_decide; try done; tauto.
  - destruct (decide (ku = kv)) as [-> | Hne].
    + rewrite lookup_alter_eq. destruct Hkv as [n ->]. by eexists.
    + by rewrite lookup_alter_ne.
Qed.

Lemma linked_ok G ku kv d :
  graph_ok G -> ku ∈ dom (_node G) -> kv ∈ dom (_node G) ->
  graph_ok (linked ku kv d G).
Proof.
  intros Hok Hku Hkv.
  assert (Hu : ku ∈ dom (_adj G)) by (by rewrite (ok_dom G Hok)).
  assert (Hv : kv ∈ dom (_adj G)) by (by rewrite (ok_dom G Hok)).
  split.
  - simpl. rewrite !dom_alter_L. apply (ok_dom G Hok).
  - intros a b d'. rewrite edge_data_linked by done. simpl.
    case_bool_decide as Hc.
    + intros _. destruct Hc as [[_ ->] | [_ ->]]; done.
    + apply (ok_nbrs G Hok).
  - intros a b. rewrite !edge_data_linked by done.
    repeat case_bool_decide; try done; try tauto.
    apply (ok_sym G Hok).
Qed.

(** *** One relationship *)

Lemma has_node_dom G v k :
  hash_of v = Some k -> has_node G v = bool_decide (k ∈ dom (_node G)).
Proof.
  intros Hk. unfold has_node. rewrite Hk. apply bool_decide_ext.
  by rewrite elem_of_dom.
Qed.

(** What a relationship that does not raise does: nothing, or an edge
    between two nodes with its attributes laid over the old ones. *)
Lemma add_one_rel_cases G rel G' :
  add_one_rel G rel = Ok G' ->
  (G' = G
   /\ forall ku kv, rel_ends rel = Some (ku, kv) ->
                    ~ (ku ∈ dom (_node G) /\ kv ∈ dom (_node G)))
  \/ exists ku kv attrs,
       rel_ends rel = Some (ku, kv)
       /\ ku ∈ dom (_node G) /\ kv ∈ dom (_node G)
       /\ rel_attrs rel = Some attrs
       /\ G' = linked ku kv (attrs ∪ default ∅ (edge_data G ku kv)) G.
Proof.
  unfold add_one_rel, rel_ends, rel_attrs.
  destruct (getitem rel "start") as [s|]; [|done]. simpl.
  destruct (has_node G s) eqn:Hs.
  - destruct (getitem rel "end") as [e|]; [|done]. simpl.
    destruct (has_node G e) eqn:He.
    + destruct (getitem rel "type") as [ty|]; [|done]. simpl.
      destruct (getitem rel "properties") as [p|]; [|done]. simpl.
      destruct (getitem p "type") as [nm|]; [|done]. simpl.
      apply has_node_true in Hs as (ku & Hku & Hdu).
      apply has_node_true in He as (kv & Hkv & Hdv).
      rewrite (add_edge_linked G s e ku kv) by
        (try done; apply has_node_true; eauto).
      intros [= <-]. right. exists ku, kv, {[ "type" := ty; "name" := nm ]}.
      by rewrite Hku, Hkv.
    + intros [= <-]. left. split; [done|]. intros ku kv Hends [_ Hkv].
      destruct (hash_of s) as [ks|]; [|done].
      destruct (hash_of e) as [ke|] eqn:Hke; [|done].
      injection Hends as <- <-.
      rewrite (has_node_dom G e ke Hke) in He.
      by apply bool_decide_eq_false in He.
  - intros [= <-]. left. split; [done|]. intros ku kv Hends [Hku _].
    destruct (getitem rel "end") as [e|]; [|done].
    destruct (hash_of s) as [ks|] eqn:Hks; [|done].
    destruct (hash_of e) as [ke|]; [|done].
    injection Hends as <- <-.
    rewrite (has_node_dom G s ks Hks) in Hs.
    by apply bool_decide_eq_false in Hs.
Qed.

Lemma add_one_rel_ok G rel G' :
  graph_ok G -> add_one_rel G rel = Ok G' -> graph_ok G'.
Proof.
  intros Hok H.
  destruct (add_one_rel_cases G rel G' H)
    as [[-> _] | (ku & kv & attrs & _ & Hu & Hv & _ & ->)]; [done|].
  by apply linked_ok.
Qed.

Lemma add_rels_ok rels G G' :
  graph_ok G -> for_each add_one_rel rels G = Ok G' -> graph_ok G'.
Proof.
  revert G; induction rels as [|rel rest IH]; intros G Hok; simpl.
  - by intros [= <-].
  - destruct (add_one_rel G rel) as [G1|] eqn:E1; [|done]. simpl.
    apply IH. exact (add_one_rel_ok G rel G1 Hok E1).
Qed.

(** The pieces of a call that returned. *)
Lemma create_graph_inv graph_data G :
  create_graph graph_data = Ok G ->
  exists nodes node_list relationships rel_list G0,
    getitem graph_data "nodes" = Ok nodes /\ iter nodes = Ok node_list
    /\ for_each add_one_node node_list empty_graph = Ok G0
    /\ getitem graph_data "relationships" = Ok relationships
    /\ iter relationships = Ok rel_list
    /\ for_each add_one_rel rel_list G0 = Ok G.
Proof.
  unfold create_graph, add_nodes, add_relationships.
  destruct (getitem graph_data "nodes") as [nodes|] eqn:E1; [|done]. simpl.
  destruct (iter nodes) as [node_list|] eqn:E2; [|done]. simpl.
  destruct (for_each add_one_node node_list empty_graph) as [G0|] eqn:E3;
    [|done]. simpl.
  destruct (getitem graph_data "relationships") as [rels|] eqn:E4; [|done].
  simpl.
  destruct (iter rels) as [rel_list|] eqn:E5; [|done]. simpl.
  intros H. exists nodes, node_list, rels, rel_list, G0. by split_and!.
Qed.

(** X16: the graph [create_graph] returns is a well-formed undirected graph
    on the declared nodes: its nodes are exactly the declared ids (the
    relationships add none), every node has an adjacency entry, every
    neighbour is a node, and each edge is stored under both directions with
    the same attributes. *)
Theorem create_graph_is_undirected_on_declared_nodes
    (graph_data nodes : json) (node_list : list json) (G : graph) :
  getitem graph_data "nodes" = Ok nodes -> iter nodes = Ok node_list ->
  create_graph graph_data = Ok G ->
  dom (_node G) = declared_ids node_list
  /\ dom (_adj G) = dom (_node G)
  /\ (forall u v, has_edge G u v = true ->
                  u ∈ dom (_node G) /\ v ∈ dom (_node G))
  /\ (forall u v, edge_data G u v = edge_data G v u).
Proof.
  intros Hn Hi Hc.
  destruct (create_graph_inv graph_data G Hc)
    as (nodes' & node_list' & rels & rel_list & G0 & Hn' & Hi' & H0 & _ & _ & H1).
  rewrite Hn in Hn'. injection Hn' as <-.
  rewrite Hi in Hi'. injection Hi' as <-.
  assert (Hok : graph_ok G).
  { apply (add_rels_ok rel_list G0); [|done].
    apply (add_nodes_ok node_list empty_graph); [apply graph_ok_empty | done]. }
  split.
  { rewrite (add_rels_nodes _ _ _ H1), (add_nodes_dom _ _ _ H0). simpl.
    set_solver. }
  split; [apply (ok_dom G Hok)|].
  split; [|apply (ok_sym G Hok)].
  intros u v Hedge. unfold has_edge in Hedge.
  apply bool_decide_eq_true in Hedge.
  assert (Hvu : is_Some (edge_data G v u))
    by (by rewrite <- (ok_sym G Hok u v)).
  destruct Hedge as [d Hd]. destruct Hvu as [d' Hd'].
  split; [exact (ok_nbrs G Hok v u d' Hd') | exact (ok_nbrs G Hok u v d Hd)].
Qed.

Lemma create_graph_is_undirected_on_declared_nodes_witness :
  let G := result_value
             (create_graph (sample_data [sample_rel 1 2; sample_rel 3 2;
                                         sample_rel 1 9])) in
  dom (_node G) = declared_ids [sample_node 1; sample_node 2; sample_node 3]
  /\ dom (_adj G) = dom (_node G)
  /\ (forall u v, has_edge G u v = true ->
                  u ∈ dom (_node G) /\ v ∈ dom (_node G))
  /\ (forall u v, edge_data G u v = edge_data G v u).
Proof.
  apply (create_graph_is_undirected_on_declared_nodes
           (sample_data [sample_rel 1 2; sample_rel 3 2; sample_rel 1 9])
           (JArr [sample_node 1; sample_node 2; sample_node 3]));
    vm_compute; reflexivity.
Defined.

(** *** Which edges, with which attributes *)

Lemma add_node_edge_data n attr G G' u v :
  graph_ok G -> add_node n attr G = Ok G' ->
  edge_data G' u v = edge_data G u v.
Proof.
  intros Hok. unfold add_node.
  destruct (hash_of n) as [k|]; [|done].
  destruct (_node G !! k) as [old|] eqn:E.
  - by intros [= <-].
  - destruct k; [done|..]; intros [= <-]; by apply edge_data_new_node.
Qed.

Lemma add_one_node_edge_data G node G' u v :
  graph_ok G -> add_one_node G node = Ok G' ->
  edge_data G' u v = edge_data G u v.
Proof.
  intros Hok. unfold add_one_node.
  destruct (getitem node "id") as [x|]; [|done]. simpl.
  destruct (getitem node "labels") as [l|]; [|done]. simpl.
  destruct (getitem node "properties") as [p|]; [|done]. simpl.
  destruct (as_kwargs p) as [kw|]; [|done]. simpl.
  case_bool_decide; [done|]. by apply add_node_edge_data.
Qed.

(** The first loop adds no edge. *)
Lemma add_nodes_edge_data node_list G G' u v :
  graph_ok G -> for_each add_one_node node_list G = Ok G' ->
  edge_data G' u v = edge_data G u v.
Proof.
  revert G; induction node_list as [|node rest IH]; intros G Hok; simpl.
  - by intros [= <-].
  - destruct (add_one_node G node) as [G1|] eqn:E1; [|done]. simpl.
    intros Hrest.
    rewrite (IH G1 (add_one_node_ok G node G1 Hok E1) Hrest).
    exact (add_one_node_edge_data G node G1 u v Hok E1).
Qed.

Lemma joins_sym rel u v : joins rel u v <-> joins rel v u.
Proof. unfold joins. tauto. Qed.

(** The edges after the second loop: those before it, and one between every
    two nodes that a relationship joins. *)
Lemma add_rels_edges rels G0 G u v :
  graph_ok G0 -> for_each add_one_rel rels G0 = Ok G ->
  is_Some (edge_data G u v)
  <-> is_Some (edge_data G0 u v)
      \/ (u ∈ dom (_node G0) /\ v ∈ dom (_node G0)
          /\ exists rel, rel ∈ rels /\ joins rel u v).
Proof.
  revert G0; induction rels as [|rel rest IH]; intros G0 Hok; simpl.
  - intros [= <-]. split; [by left|].
    intros [H | (_ & _ & rel & Hin & _)]; [done|].
    by apply elem_of_nil in Hin.
  - destruct (add_one_rel G0 rel) as [G1|] eqn:E1; [|done]. simpl.
    intros Hrest.
    pose proof (add_one_rel_ok G0 rel G1 Hok E1) as Hok1.
    pose proof (add_one_rel_nodes G0 rel G1 E1) as Hnodes.
    rewrite (IH G1 Hok1 Hrest), Hnodes.
    destruct (add_one_rel_cases G0 rel G1 E1)
      as [[-> Hskip] | (ku & kv & attrs & Hends & Hu & Hv & _ & ->)].
    + split.
      * intros [H | (Hdu & Hdv & r & Hin & Hj)]; [by left|].
        right. split_and!; try done. exists r.
        split; [apply elem_of_cons; by right | done].
      * intros [H | (Hdu & Hdv & r & Hin & Hj)]; [by left|].
        apply elem_of_cons in Hin as [-> | Hin].
        -- exfalso. destruct Hj as [Hj | Hj].
           ++ by apply (Hskip u v Hj).
           ++ by apply (Hskip v u Hj).
        -- right. split_and!; try done. by exists r.
    + assert (Hau : ku ∈ dom (_adj G0)) by (by rewrite (ok_dom G0 Hok)).
      assert (Hav : kv ∈ dom (_adj G0)) by (by rewrite (ok_dom G0 Hok)).
      rewrite edge_data_linked by done.
      case_bool_decide as Hc.
      * split; [|intros _; left; by eexists].
        intros _. right.
        assert (Hj : joins rel u v).
        { destruct Hc as [[-> ->] | [-> ->]]; [by left | by right]. }
        assert (u ∈ dom (_node G0) /\ v ∈ dom (_node G0)) as [? ?]
          by (destruct Hc as [[-> ->] | [-> ->]]; done).
        split_and!; try done. exists rel.
        split; [apply elem_of_cons; by left | done].
      * split.
        -- intros [H | (Hdu & Hdv & r & Hin & Hj)]; [by left|].
           right. split_and!; try done. exists r.
           split; [apply elem_of_cons; by right | done].
        -- intros [H | (Hdu & Hdv & r & Hin & Hj)]; [by left|].
           apply elem_of_cons in Hin as [-> | Hin].
           ++ exfalso. apply Hc. unfold joins in Hj. rewrite Hends in Hj.
              destruct Hj as [[= -> ->] | [= -> ->]]; auto.
           ++ right. split_and!; try done. by exists r.
Qed.

(** X17: the graph has an edge between two nodes exactly when both are
    declared and some relationship joins them, in either direction. *)
Theorem edge_iff_relationship_between_declared_nodes
    (graph_data nodes relationships : json) (node_list rel_list : list json)
    (G : graph) (u v : hashable) :
  getitem graph_data "nodes" = Ok nodes -> iter nodes = Ok node_list ->
  getitem graph_data "relationships" = Ok relationships ->
  iter relationships = Ok rel_list ->
  create_graph graph_data = Ok G ->
  has_edge G u v = true
  <-> u ∈ declared_ids node_list /\ v ∈ declared_ids node_list
      /\ exists rel, rel ∈ rel_list /\ joins rel u v.
Proof.
  intros Hn Hi Hr Hi' Hc.
  destruct (create_graph_inv graph_data G Hc)
    as (n' & nl' & r' & rl' & G0 & Hn' & Hi2 & H0 & Hr' & Hi3 & H1).
  rewrite Hn in Hn'. injection Hn' as <-.
  rewrite Hi in Hi2. injection Hi2 as <-.
  rewrite Hr in Hr'. injection Hr' as <-.
  rewrite Hi' in Hi3. injection Hi3 as <-.
  assert (Hok0 : graph_ok G0)
    by (apply (add_nodes_ok node_list empty_graph);
        [apply graph_ok_empty | done]).
  assert (Hdom : dom (_node G0) = declared_ids node_list).
  { rewrite (add_nodes_dom _ _ _ H0). simpl. set_solver. }
  unfold has_edge. rewrite bool_decide_eq_true.
  rewrite (add_rels_edges rel_list G0 G u v Hok0 H1), Hdom.
  rewrite (add_nodes_edge_data node_list empty_graph G0 u v graph_ok_empty H0).
  split; [|by right].
  intros [[d Hd] | H]; [|done].
  unfold edge_data in Hd. simpl in Hd. by rewrite lookup_empty in Hd.
Qed.

Lemma edge_iff_relationship_between_declared_nodes_witness :
  has_edge (result_value (create_graph (sample_data [sample_rel 3 2])))
           (HInt 2) (HInt 3) = true
  <-> HInt 2 ∈ declared_ids [sample_node 1; sample_node 2; sample_node 3]
      /\ HInt 3 ∈ declared_ids [sample_node 1; sample_node 2; sample_node 3]
      /\ exists rel, rel ∈ [sample_rel 3 2] /\ joins rel (HInt 2) (HInt 3).
Proof.
  apply (edge_iff_relationship_between_declared_nodes
           (sample_data [sample_rel 3 2])
           (JArr [sample_node 1; sample_node 2; sample_node 3])
           (JArr [sample_rel 3 2]));
    vm_compute; reflexivity.
Defined.

(** *** The attributes of an edge *)

Lemma union_absorb (attrs old : gmap string json) :
  dom old ⊆ dom attrs -> attrs ∪ old = attrs.
Proof.
  intros Hsub. apply map_eq. intros i.
  destruct (attrs !! i) as [x|] eqn:E.
  - rewrite lookup_union_l'; [done | by eexists].
  - rewrite lookup_union_r by done.
    apply not_elem_of_dom. apply not_elem_of_dom in E. set_solver.
Qed.

Lemma rel_attrs_dom rel attrs :
  rel_attrs rel = Some attrs -> dom attrs = ({[ "type"; "name" ]} : gset string).
Proof.
  unfold rel_attrs.
  destruct (getitem rel "type") as [ty|]; [|done].
  destruct (getitem rel "properties") as [p|]; [|done].
  destruct (getitem p "type") as [nm|]; [|done].
  intros [= <-]. rewrite dom_insert_L, dom_singleton_L. set_solver.
Qed.

Lemma no_edges_keys_ok G :
  (forall u v, edge_data G u v = None) -> edge_keys_ok G.
Proof. intros Hno u v d Hd. by rewrite Hno in Hd. Qed.

(** What [add_edge] stores for a relationship is the attributes of that
    relationship: they cover those of an older edge. *)
Lemma datadict_is_rel_attrs G ku kv attrs rel :
  edge_keys_ok G -> rel_attrs rel = Some attrs ->
  attrs ∪ default ∅ (edge_data G ku kv) = attrs.
Proof.
  intros Hkeys Ha. apply union_absorb.
  destruct (edge_data G ku kv) as [old|] eqn:E; simpl.
  - by rewrite (Hkeys ku kv old E), (rel_attrs_dom rel attrs Ha).
  - rewrite dom_empty_L. set_solver.
Qed.

Lemma add_one_rel_keys_ok G rel G' :
  graph_ok G -> edge_keys_ok G -> add_one_rel G rel = Ok G' ->
  edge_keys_ok G'.
Proof.
  intros Hok Hkeys H.
  destruct (add_one_rel_cases G rel G' H)
    as [[-> _] | (ku & kv & attrs & _ & Hu & Hv & Ha & ->)]; [done|].
  intros a b d. rewrite edge_data_linked by (by rewrite (ok_dom G Hok)).
  case_bool_decide; [|apply Hkeys].
  intros [= <-]. rewrite (datadict_is_rel_attrs G ku kv attrs rel) by done.
  by apply (rel_attrs_dom rel).
Qed.

Lemma add_one_rel_sets_data G rel G' ku kv :
  graph_ok G -> edge_keys_ok G -> add_one_rel G rel = Ok G' ->
  rel_ends rel = Some (ku, kv) ->
  ku ∈ dom (_node G) -> kv ∈ dom (_node G) ->
  is_Some (rel_attrs rel)
  /\ edge_data G' ku kv = rel_attrs rel /\ edge_data G' kv ku = rel_attrs rel.
Proof.
  intros Hok Hkeys H Hends Hu Hv.
  destruct (add_one_rel_cases G rel G' H)
    as [[-> Hskip] | (ku' & kv' & attrs & Hends' & _ & _ & Ha & ->)].
  - exfalso. by apply (Hskip ku kv Hends).
  - rewrite Hends in Hends'. injection Hends' as <- <-.
    rewrite !edge_data_linked by (by rewrite (ok_dom G Hok)).
    rewrite !bool_decide_true by auto.
    rewrite (datadict_is_rel_attrs G ku kv attrs rel) by done.
    rewrite Ha. split; [by eexists | done].
Qed.

Lemma add_one_rel_keeps_data G rel G' u v :
  graph_ok G -> add_one_rel G rel = Ok G' -> ~ joins rel u v ->
  edge_data G' u v = edge_data G u v.
Proof.
  intros Hok H Hj.
  destruct (add_one_rel_cases G rel G' H)
    as [[-> _] | (ku & kv & attrs & Hends & Hu & Hv & _ & ->)]; [done|].
  rewrite edge_data_linked by (by rewrite (ok_dom G Hok)).
  rewrite bool_decide_false; [done|].
  intros [[-> ->] | [-> ->]]; apply Hj; [by left | by right].
Qed.

Lemma add_rels_keeps_data rels G G' u v :
  graph_ok G -> for_each add_one_rel rels G = Ok G' ->
  (forall r, r ∈ rels -> ~ joins r u v) ->
  edge_data G' u v = edge_data G u v.
Proof.
  revert G; induction rels as [|rel rest IH]; intros G Hok; simpl.
  - by intros [= <-].
  - destruct (add_one_rel G rel) as [G1|] eqn:E1; [|done]. simpl.
    intros Hrest Hno.
    rewrite (IH G1 (add_one_rel_ok G rel G1 Hok E1) Hrest).
    + apply (add_one_rel_keeps_data G rel G1 u v Hok E1).
      apply Hno, elem_of_cons. by left.
    + intros r Hr. apply Hno, elem_of_cons. by right.
Qed.

Lemma add_rels_keys_ok rels G G' :
  graph_ok G -> edge_keys_ok G -> for_each add_one_rel rels G = Ok G' ->
  edge_keys_ok G'.
Proof.
  revert G; induction rels as [|rel rest IH]; intros G Hok Hkeys; simpl.
  - by intros [= <-].
  - destruct (add_one_rel G rel) as [G1|] eqn:E1; [|done]. simpl.
    apply IH.
    + exact (add_one_rel_ok G rel G1 Hok E1).
    + exact (add_one_rel_keys_ok G rel G1 Hok Hkeys E1).
Qed.

Lemma for_each_app_inv {A} (body : graph -> A -> result graph) xs ys G G' :
  for_each body (xs ++ ys) G = Ok G' ->
  exists G1, for_each body xs G = Ok G1 /\ for_each body ys G1 = Ok G'.
Proof.
  revert G; induction xs as [|x xs IH]; intros G; simpl.
  - intros H. by exists G.
  - destruct (body G x) as [G1|]; [|done]. simpl. apply IH.
Qed.

(** X18: the graph keeps one edge between two nodes, and the last
    relationship that joins them, in either direction, decides its
    attributes: the edge carries that relationship's type as "type" and its
    type property as "name", under both directions; what earlier
    relationships between the two nodes said is gone. *)
Theorem last_relationship_decides_edge_attributes
    (graph_data : json) (before after : list json) (rel : json)
    (G : graph) (ku kv : hashable) :
  getitem graph_data "relationships" = Ok (JArr (before ++ rel :: after)) ->
  create_graph graph_data = Ok G ->
  rel_ends rel = Some (ku, kv) ->
  ku ∈ dom (_node G) -> kv ∈ dom (_node G) ->
  (forall r, r ∈ after -> ~ joins r ku kv) ->
  is_Some (rel_attrs rel)
  /\ edge_data G ku kv = rel_attrs rel /\ edge_data G kv ku = rel_attrs rel.
Proof.
  intros Hr Hc Hends Hu Hv Hafter.
  destruct (create_graph_inv graph_data G Hc)
    as (n' & nl & r' & rl & G0 & _ & _ & H0 & Hr' & Hi & H1).
  rewrite Hr in Hr'. injection Hr' as <-. simpl in Hi. injection Hi as <-.
  apply for_each_app_inv in H1 as (G1 & Hb & H1).
  simpl in H1. destruct (add_one_rel G1 rel) as [G2|] eqn:E2; [|done].
  simpl in H1.
  assert (Hok0 : graph_ok G0)
    by (apply (add_nodes_ok nl empty_graph); [apply graph_ok_empty | done]).
  assert (Hkeys0 : edge_keys_ok G0).
  { apply no_edges_keys_ok. intros u v.
    rewrite (add_nodes_edge_data nl empty_graph G0 u v graph_ok_empty H0).
    unfold edge_data. simpl. by rewrite lookup_empty. }
  pose proof (add_rels_ok before G0 G1 Hok0 Hb) as Hok1.
  pose proof (add_rels_keys_ok before G0 G1 Hok0 Hkeys0 Hb) as Hkeys1.
  pose proof (add_one_rel_ok G1 rel G2 Hok1 E2) as Hok2.
  assert (Hn1 : _node G = _node G1).
  { rewrite (add_rels_nodes after G2 G H1).
    exact (add_one_rel_nodes G1 rel G2 E2). }
  rewrite Hn1 in Hu, Hv.
  destruct (add_one_rel_sets_data G1 rel G2 ku kv Hok1 Hkeys1 E2 Hends Hu Hv)
    as (Hsome & Huv & Hvu).
  split; [done|].
  rewrite (add_rels_keeps_data after G2 G ku kv Hok2 H1 Hafter).
  rewrite (add_rels_keeps_data after G2 G kv ku Hok2 H1).
  - done.
  - intros r Hr2 Hj. apply (Hafter r Hr2). by apply joins_sym.
Qed.

Lemma last_relationship_decides_edge_attributes_witness :
  let rel := JObj {[ "start" := JInt 2; "end" := JInt 1;
                     "type" := JStr "RELATION";
                     "properties" := JObj {[ "type" := JStr "has cause" ]} ]} in
  let G := result_value
             (create_graph (sample_data [sample_rel 1 2; rel; sample_rel 2 3])) in
  is_Some (rel_attrs rel)
  /\ edge_data G (HInt 2) (HInt 1) = rel_attrs rel
  /\ edge_data G (HInt 1) (HInt 2) = rel_attrs rel.
Proof.
  intros rel G.
  apply (last_relationship_decides_edge_attributes
           (sample_data [sample_rel 1 2; rel; sample_rel 2 3])
           [sample_rel 1 2] [sample_rel 2 3] rel G (HInt 2) (HInt 1)).
  - vm_compute. reflexivity.
  - vm_compute. reflexivity.
  - vm_compute. reflexivity.
  - vm_compute. reflexivity.
  - vm_compute. reflexivity.
  - intros r Hr. apply list_elem_of_singleton in Hr as ->.
    unfold joins. vm_compute. intros [H | H]; discriminate.
Defined.

(** *** Counting edges *)

Abbreviation td adj :=
  (map_fold (fun (k : hashable) (nbrs : gmap hashable (gmap string json)) acc =>
               acc + degree k nbrs) 0 adj).

Lemma td_insert_None (adj : gmap hashable (gmap hashable (gmap string json)))
    k n :
  adj !! k = None -> td (<[k := n]> adj) = td adj + degree k n.
Proof.
  intros Hk. rewrite map_fold_insert_L; [done | | done].
  intros. lia.
Qed.

Lemma td_insert_Some (adj : gmap hashable (gmap hashable (gmap string json)))
    k n n' :
  adj !! k = Some n ->
  td (<[k := n']> adj) + degree k n = td adj + degree k n'.
Proof.
  intros Hk.
  rewrite <- (insert_delete_id adj k n Hk) at 2.
  rewrite <- (insert_delete_eq adj k n').
  rewrite !td_insert_None by apply lookup_delete_eq. lia.
Qed.

Lemma alter_as_insert (adj : gmap hashable (gmap hashable (gmap string json)))
    k f n :
  adj !! k = Some n -> alter f k adj = <[k := f n]> adj.
Proof.
  intros Hk. apply map_eq. intros j.
  destruct (decide (k = j)) as [<- | Hne].
  - by rewrite lookup_alter_eq, lookup_insert_eq, Hk.
  - by rewrite lookup_alter_ne, lookup_insert_ne.
Qed.

Lemma degree_insert k j d (n : gmap hashable (gmap string json)) :
  degree k (<[j := d]> n)
  = degree k n
    + (if bool_decide (is_Some (n !! j)) then 0
       else if bool_decide (j = k) then 2 else 1).
Proof.
  unfold degree. rewrite map_size_insert.
  destruct (decide (j = k)) as [-> | Hne].
  - rewrite lookup_insert_eq. rewrite (bool_decide_true (k = k)) by done.
    destruct (n !! k) as [x|] eqn:E; simpl; lia.
  - rewrite lookup_insert_ne by done.
    rewrite (bool_decide_false (j = k)) by done.
    destruct (n !! j) as [x|] eqn:E; simpl; lia.
Qed.

(** An edge between two nodes adds two to the sum of the degrees when the
    nodes were not joined, and nothing when they were. *)
Lemma linked_total_degree G ku kv d :
  graph_ok G -> ku ∈ dom (_adj G) -> kv ∈ dom (_adj G) ->
  total_degree (linked ku kv d G)
  = total_degree G + (if has_edge G ku kv then 0 else 2).
Proof.
  intros Hok Hu Hv.
  apply elem_of_dom in Hu as [nu Hnu]. apply elem_of_dom in Hv as [nv Hnv].
  pose proof (ok_sym G Hok ku kv) as Hsym.
  unfold total_degree, linked, has_edge, edge_data in *. simpl.
  rewrite Hnu, Hnv in Hsym. simpl in Hsym. rewrite Hnu. simpl.
  rewrite (alter_as_insert (_adj G) ku _ nu Hnu).
  destruct (decide (ku = kv)) as [-> | Hne].
  - rewrite (alter_as_insert _ kv _ (<[kv := d]> nu))
      by apply lookup_insert_eq.
    rewrite !insert_insert_eq.
    pose proof (td_insert_Some (_adj G) kv nu (<[kv := d]> nu) Hnu) as H.
    rewrite degree_insert in H.
    rewrite (bool_decide_true (kv = kv)) in H by done.
    destruct (bool_decide (is_Some (nu !! kv))); lia.
  - rewrite (alter_as_insert _ kv _ nv)
      by (by rewrite lookup_insert_ne).
    pose proof (td_insert_Some (_adj G) ku nu (<[kv := d]> nu) Hnu) as H1.
    pose proof (td_insert_Some (<[ku := <[kv := d]> nu]> (_adj G)) kv nv
                  (<[ku := d]> nv)) as H2.
    rewrite lookup_insert_ne in H2 by done. specialize (H2 Hnv).
    rewrite degree_insert in H1, H2.
    rewrite (bool_decide_false (kv = ku)) in H1 by done.
    rewrite (bool_decide_false (ku = kv)) in H2 by done.
    rewrite <- Hsym in H2.
    destruct (bool_decide (is_Some (nu !! kv))); lia.
Qed.

Lemma total_degree_new_node G k attr :
  _adj G !! k = None ->
  total_degree (Graph (<[k := attr]> (_node G)) (<[k := ∅]> (_adj G)))
  = total_degree G.
Proof.
  intros Hk. unfold total_degree. simpl. rewrite td_insert_None by done.
  unfold degree. rewrite map_size_empty, lookup_empty.
  rewrite bool_decide_false by (by intros [? ?]). lia.
Qed.

Lemma add_node_total_degree n attr G G' :
  graph_ok G -> add_node n attr G = Ok G' -> total_degree G' = total_degree G.
Proof.
  intros Hok. unfold add_node.
  destruct (hash_of n) as [k|]; [|done].
  destruct (_node G !! k) as [old|] eqn:E.
  - by intros [= <-].
  - assert (Hadj : _adj G !! k = None).
    { apply not_elem_of_dom. rewrite (ok_dom G Hok). by apply not_elem_of_dom. }
    destruct k; [done|..]; intros [= <-]; by apply total_degree_new_node.
Qed.

Lemma add_nodes_total_degree node_list G G' :
  graph_ok G -> for_each add_one_node node_list G = Ok G' ->
  total_degree G' = total_degree G.
Proof.
  revert G; induction node_list as [|node rest IH]; intros G Hok; simpl.
  - by intros [= <-].
  - destruct (add_one_node G node) as [G1|] eqn:E1; [|done]. simpl.
    intros Hrest.
    rewrite (IH G1 (add_one_node_ok G node G1 Hok E1) Hrest).
    revert E1. unfold add_one_node.
    destruct (getitem node "id") as [x|]; [|done]. simpl.
    destruct (getitem node "labels") as [l|]; [|done]. simpl.
    destruct (getitem node "properties") as [p|]; [|done]. simpl.
    destruct (as_kwargs p) as [kw|]; [|done]. simpl.
    case_bool_decide; [done|]. by apply add_node_total_degree.
Qed.

Lemma add_one_rel_total_degree G rel G' :
  graph_ok G -> add_one_rel G rel = Ok G' ->
  total_degree G' = total_degree G + (if adds_edge G rel then 2 else 0).
Proof.
  intros Hok H. unfold adds_edge.
  destruct (add_one_rel_cases G rel G' H)
    as [[-> Hskip] | (ku & kv & attrs & Hends & Hu & Hv & _ & ->)].
  - destruct (rel_ends rel) as [[ku kv]|]; [|lia].
    specialize (Hskip ku kv eq_refl).
    destruct (bool_decide (ku ∈ dom (_node G))) eqn:E1;
      destruct (bool_decide (kv ∈ dom (_node G))) eqn:E2; simpl; try lia.
    apply bool_decide_eq_true in E1, E2. tauto.
  - rewrite Hends. rewrite !bool_decide_true by done. simpl.
    rewrite linked_total_degree by (try done; by rewrite (ok_dom G Hok)).
    destruct (has_edge G ku kv); simpl; lia.
Qed.

Lemma add_rels_total_degree rels G G' :
  graph_ok G -> for_each add_one_rel rels G = Ok G' ->
  exists added, total_degree G' = total_degree G + 2 * added
                /\ added <= length rels.
Proof.
  revert G; induction rels as [|rel rest IH]; intros G Hok; simpl.
  - intros [= <-]. exists 0. lia.
  - destruct (add_one_rel G rel) as [G1|] eqn:E1; [|done]. simpl.
    intros Hrest.
    destruct (IH G1 (add_one_rel_ok G rel G1 Hok E1) Hrest) as (m & Hm & Hle).
    rewrite (add_one_rel_total_degree G rel G1 Hok E1) in Hm.
    destruct (adds_edge G rel); [exists (S m) | exists m]; lia.
Qed.

Lemma built_total_degree node_list rels G0 G :
  for_each add_one_node node_list empty_graph = Ok G0 ->
  for_each add_one_rel rels G0 = Ok G ->
  graph_ok G
  /\ exists added, total_degree G = 2 * added /\ added <= length rels.
Proof.
  intros H0 H1.
  assert (Hok0 : graph_ok G0)
    by (apply (add_nodes_ok node_list empty_graph);
        [apply graph_ok_empty | done]).
  split; [by apply (add_rels_ok rels G0)|].
  destruct (add_rels_total_degree rels G0 G Hok0 H1) as (m & Hm & Hle).
  rewrite (add_nodes_total_degree node_list empty_graph G0 graph_ok_empty H0)
    in Hm.
  exists m. split; [|done]. rewrite Hm. reflexivity.
Qed.

(** X19: in the second loop a relationship raises the edge count by one
    when it joins two nodes that are not yet joined, and leaves it as it
    is otherwise: a relationship that repeats an edge, in the same or in
    the other direction, adds none. *)
Theorem relationship_adds_at_most_one_edge
    (node_list rels_before : list json) (G0 G G' : graph) (rel : json) :
  for_each add_one_node node_list empty_graph = Ok G0 ->
  for_each add_one_rel rels_before G0 = Ok G ->
  add_one_rel G rel = Ok G' ->
  number_of_edges G'
  = number_of_edges G + (if adds_edge G rel then 1 else 0).
Proof.
  intros H0 H1 H2.
  destruct (built_total_degree node_list rels_before G0 G H0 H1)
    as (Hok & m & Hm & _).
  pose proof (add_one_rel_total_degree G rel G' Hok H2) as Hstep.
  change (number_of_edges G') with (total_degree G' / 2).
  change (number_of_edges G) with (total_degree G / 2).
  rewrite Hstep, Hm.
  destruct (adds_edge G rel).
  - replace (2 * m + 2) with ((m + 1) * 2) by lia.
    replace (2 * m) with (m * 2) by lia. by rewrite !Nat.div_mul.
  - rewrite Nat.add_0_r. lia.
Qed.

Lemma relationship_adds_at_most_one_edge_witness :
  let G0 := result_value
              (for_each add_one_node
                 [sample_node 1; sample_node 2; sample_node 3] empty_graph) in
  let G := result_value (for_each add_one_rel [sample_rel 1 2] G0) in
  let G' := result_value (add_one_rel G (sample_rel 2 1)) in
  number_of_edges G'
  = number_of_edges G + (if adds_edge G (sample_rel 2 1) then 1 else 0).
Proof.
  intros G0 G G'.
  apply (relationship_adds_at_most_one_edge
           [sample_node 1; sample_node 2; sample_node 3] [sample_rel 1 2]
           G0 G G' (sample_rel 2 1));
    vm_compute; reflexivity.
Defined.

(** X20: the graph has at most as many edges as the description has
    relationships. *)
Theorem edge_count_at_most_relationships
    (graph_data relationships : json) (rel_list : list json) (G : graph) :
  getitem graph_data "relationships" = Ok relationships ->
  iter relationships = Ok rel_list ->
  create_graph graph_data = Ok G ->
  number_of_edges G <= length rel_list.
Proof.
  intros Hr Hi Hc.
  destruct (create_graph_inv graph_data G Hc)
    as (n' & nl & r' & rl & G0 & _ & _ & H0 & Hr' & Hi' & H1).
  rewrite Hr in Hr'. injection Hr' as <-.
  rewrite Hi in Hi'. injection Hi' as <-.
  destruct (built_total_degree nl rel_list G0 G H0 H1) as (_ & m & Hm & Hle).
  change (number_of_edges G) with (total_degree G / 2).
  rewrite Hm. replace (2 * m) with (m * 2) by lia.
  by rewrite Nat.div_mul.
Qed.

Lemma edge_count_at_most_relationships_witness :
  number_of_edges
    (result_value
       (create_graph (sample_data [sample_rel 1 2; sample_rel 2 1;
                                   sample_rel 1 9; sample_rel 3 3])))
  <= length [sample_rel 1 2; sample_rel 2 1; sample_rel 1 9; sample_rel 3 3].
Proof.
  apply (edge_count_at_most_relationships
           (sample_data [sample_rel 1 2; sample_rel 2 1; sample_rel 1 9;
                         sample_rel 3 3])
           (JArr [sample_rel 1 2; sample_rel 2 1; sample_rel 1 9;
                  sample_rel 3 3]));
    vm_compute; reflexivity.
Defined.

(** *** Nodes that cannot be added *)





Example clashing_node_raises :
  create_graph
    (JObj {[ "nodes" := JArr [sample_node 1; clashing_node 2];
             "relationships" := JArr [] ]})
  = Raise TypeError.
Proof. vm_compute. reflexivity. Qed.


End GraphMore.

(** ** [Visualizer.visualize] *)

Module VizFacts.
Import Py Decoder Neo4j StoreSpec Neo4jFacts Viz.

Example visualize_two_types :
  match visualize (store_all [ Triplet "rain" "has effect" "flood";
                               Triplet "rain" "has cause" "flood";
                               Triplet "flood" "has effect" "mud" ]
                             empty_store) with
  | Ok G => (has_arc G "rain" "flood", has_arc G "flood" "rain",
             has_arc G "flood" "mud", size (dg_node G))
  | Raise _ => (false, false, false, 0)
  end = (true, false, true, 3).
Proof. vm_compute. reflexivity. Qed.

(** *** Names and types are there *)

Lemma named_empty : named empty_store.
Proof. split; intros x Hx; by apply elem_of_nil in Hx. Qed.

Lemma merge_node_named x db :
  named db -> named (merge_node "Entity" "name" x db).1.
Proof.
  intros [Hn Hr]. unfold merge_node.
  destruct (List.filter _ (nodes db)); [|done]. simpl.
  split; [|done]. simpl. intros n Hin Hl.
  apply elem_of_app in Hin as [Hin | Hin]; [by apply Hn|].
  apply list_elem_of_singleton in Hin as ->. simpl.
  rewrite lookup_singleton_eq. by eexists.
Qed.

Lemma merge_second_named x rows acc :
  named acc.1 -> named (fold_left (merge_second "Entity" "name" x) rows acc).1.
Proof.
  revert acc; induction rows as [|a rows IH]; intros acc Hn; [done|].
  simpl. apply IH. unfold merge_second.
  pose proof (merge_node_named x acc.1 Hn) as H.
  by destruct (merge_node "Entity" "name" x acc.1).
Qed.

Lemma merge_rel_named ty rows db :
  named db -> named (fold_left (merge_rel "RELATION" "type" ty) rows db).
Proof.
  revert db; induction rows as [|row rows IH]; intros db Hn; [done|].
  simpl. apply IH. unfold merge_rel.
  destruct (existsb _ (rels db)); [done|].
  destruct Hn as [Hn Hr]. split; [done|]. simpl. intros r Hin Ht.
  apply elem_of_app in Hin as [Hin | Hin]; [by apply Hr|].
  apply list_elem_of_singleton in Hin as ->. simpl.
  rewrite lookup_singleton_eq. by eexists.
Qed.

Lemma upsert_named h tl ty db : named db -> named (upsert h tl ty db).
Proof.
  intros Hn. unfold upsert.
  pose proof (merge_node_named h db Hn) as H1.
  destruct (merge_node "Entity" "name" h db) as [db1 rows_a]. simpl in H1.
  pose proof (merge_second_named tl rows_a (db1, []) H1) as H2.
  destruct (fold_left _ rows_a (db1, [])) as [db2 rows_ab]. simpl in H2.
  by apply merge_rel_named.
Qed.

Lemma store_all_named ts db : named db -> named (store_all ts db).
Proof.
  revert db; induction ts as [|t ts IH]; intros db Hn; [done|].
  simpl. apply IH. by apply upsert_named.
Qed.

(** *** The records of the query *)

Lemma entities_with_id_spec db id n :
  n ∈ entities_with_id db id
  <-> n ∈ nodes db /\ node_id n = id /\ "Entity" ∈ node_labels n.
Proof.
  unfold entities_with_id.
  rewrite list_elem_of_In, filter_In, <- list_elem_of_In.
  rewrite andb_true_iff, Nat.eqb_eq, bool_decide_eq_true. tauto.
Qed.

Lemma is_entity_spec name db id :
  is_entity name db id = true
  <-> exists n, n ∈ entities_with_id db id /\ node_props n !! "name" = Some name.
Proof.
  unfold is_entity. rewrite existsb_exists. split.
  - intros (n & Hin & Hb). apply andb_true_iff in Hb as [Hid Hm].
    apply Nat.eqb_eq in Hid. apply bool_decide_eq_true in Hm as [Hl Hp].
    exists n. split; [|done]. apply entities_with_id_spec.
    split_and!; try done. by apply list_elem_of_In.
  - intros (n & Hin & Hp). apply entities_with_id_spec in Hin as (Hin & Hid & Hl).
    exists n. split; [by apply list_elem_of_In|].
    apply andb_true_iff. split; [by apply Nat.eqb_eq|].
    by apply bool_decide_eq_true.
Qed.

(** In a store where names and types are there, the records are the edge
    keys of the relationships. *)
Lemma record_iff_edge db rec :
  named db ->
  rec ∈ match_relations db
  <-> exists s ty t,
        rec = Record_ (Some s) (Some ty) (Some t)
        /\ exists r, r ∈ rels db /\ edge_matches s t ty db r = true.
Proof.
  intros [Hn Hr]. unfold match_relations.
  rewrite list_elem_of_In, in_flat_map. split.
  - intros (r & Hin & Hrec). apply list_elem_of_In in Hin.
    unfold records_of in Hrec. case_bool_decide as Hty; [|done].
    apply in_flat_map in Hrec as (e1 & He1 & Hrec).
    apply in_map_iff in Hrec as (e2 & <- & He2).
    apply list_elem_of_In in He1, He2.
    pose proof He1 as He1'. pose proof He2 as He2'.
    apply entities_with_id_spec in He1' as (Hi1 & _ & Hl1).
    apply entities_with_id_spec in He2' as (Hi2 & _ & Hl2).
    destruct (Hn e1 Hi1 Hl1) as [s Hs]. destruct (Hn e2 Hi2 Hl2) as [t Ht].
    destruct (Hr r Hin Hty) as [ty Hty'].
    exists s, ty, t. rewrite Hs, Ht, Hty'. split; [done|].
    exists r. split; [done|]. unfold edge_matches.
    rewrite !andb_true_iff, bool_decide_eq_true.
    split_and!; try done; apply is_entity_spec; eauto.
  - intros (s & ty & t & -> & r & Hin & Hm). exists r.
    split; [by apply list_elem_of_In|].
    unfold edge_matches in Hm.
    rewrite !andb_true_iff, bool_decide_eq_true in Hm.
    destruct Hm as [[H1 H2] [Hty Hp]].
    apply is_entity_spec in H1 as (e1 & He1 & Hs).
    apply is_entity_spec in H2 as (e2 & He2 & Ht).
    unfold records_of. rewrite bool_decide_true by done.
    apply in_flat_map. exists e1. split; [by apply list_elem_of_In|].
    apply in_map_iff. exists e2. rewrite Hs, Ht, Hp.
    split; [done | by apply list_elem_of_In].
Qed.

Lemma count_edges_pos s t ty db :
  (exists r, r ∈ rels db /\ edge_matches s t ty db r = true)
  <-> count_edges s t ty db <> 0.
Proof.
  unfold count_edges. split.
  - intros (r & Hin & Hm) Hz. apply length_zero_iff_nil in Hz.
    assert (In r (List.filter (edge_matches s t ty db) (rels db)))
      as Hf by (apply filter_In; split; [by apply list_elem_of_In | done]).
    by rewrite Hz in Hf.
  - intros Hnz.
    destruct (List.filter (edge_matches s t ty db) (rels db)) as [|r l] eqn:E;
      [done|].
    assert (In r (List.filter (edge_matches s t ty db) (rels db)))
      as Hf by (rewrite E; by left).
    apply filter_In in Hf as [Hin Hm]. exists r.
    split; [by apply list_elem_of_In | done].
Qed.

(** The query on a store filled by upserts returns the triples upserted. *)
Lemma records_of_store ts rec :
  rec ∈ match_relations (store_all ts empty_store)
  <-> exists s ty t, rec = Record_ (Some s) (Some ty) (Some t)
                     /\ Triplet s ty t ∈ ts.
Proof.
  rewrite (record_iff_edge _ rec (store_all_named ts _ named_empty)).
  destruct (StoreMore.store_counts_from_empty ts) as [_ He].
  split; intros (s & ty & t & -> & H); exists s, ty, t; (split; [done|]).
  - apply count_edges_pos in H. rewrite He in H.
    by case_bool_decide.
  - apply count_edges_pos. rewrite He. by rewrite bool_decide_true.
Qed.

(** *** The edges drawn *)

Lemma has_arc_data G u v : has_arc G u v = bool_decide (is_Some (arc_data G u v)).
Proof. reflexivity. Qed.

Lemma dg_ensure_arc k G a b : arc_data (dg_ensure k G) a b = arc_data G a b.
Proof.
  unfold dg_ensure, arc_data.
  destruct (dg_succ G !! k) eqn:E; [done|]. simpl.
  destruct (decide (k = a)) as [<- | Hne].
  - by rewrite lookup_insert_eq, E.
  - by rewrite lookup_insert_ne.
Qed.

Lemma dg_ensure_dom k G :
  dom (dg_succ G) = dom (dg_node G) ->
  dom (dg_succ (dg_ensure k G)) = dom (dg_node (dg_ensure k G))
  /\ dom (dg_node (dg_ensure k G)) = {[ k ]} ∪ dom (dg_node G).
Proof.
  intros Hd. unfold dg_ensure.
  destruct (dg_succ G !! k) eqn:E; simpl.
  - split; [done|]. apply elem_of_dom_2 in E. rewrite Hd in E. set_solver.
  - rewrite !dom_insert_L, Hd. done.
Qed.

Lemma alter_insert_arc
    (succ : gmap string (gmap string (gmap string (option string))))
    k j d a b :
  is_Some (succ !! k) ->
  (alter (fun nbrs => <[j := d]> nbrs) k succ !! a ≫= fun nbrs => nbrs !! b)
  = if bool_decide (a = k /\ b = j) then Some d
    else succ !! a ≫= fun nbrs => nbrs !! b.
Proof.
  intros [n Hk]. destruct (decide (a = k)) as [-> | Hak].
  - rewrite lookup_alter_eq, Hk. simpl.
    destruct (decide (b = j)) as [-> | Hbj].
    + by rewrite lookup_insert_eq, bool_decide_true.
    + rewrite lookup_insert_ne by done.
      rewrite bool_decide_false by (intros [_ ?]; done). done.
  - rewrite lookup_alter_ne by done.
    rewrite bool_decide_false by (intros [? _]; done). done.
Qed.

(** One record with both names: the edge from its source to its target,
    and its two nodes, are added. *)
Lemma add_record_spec G s ty t :
  dom (dg_succ G) = dom (dg_node G) ->
  exists G',
    add_record G (Record_ (Some s) ty (Some t)) = Ok G'
    /\ dom (dg_succ G') = dom (dg_node G')
    /\ dom (dg_node G') = {[ s; t ]} ∪ dom (dg_node G)
    /\ (forall a b, is_Some (arc_data G' a b)
                    <-> is_Some (arc_data G a b) \/ (a = s /\ b = t)).
Proof.
  intros Hd. unfold add_record, dg_add_edge. simpl. eexists. split; [done|].
  destruct (dg_ensure_dom s G Hd) as [Hd1 Hn1].
  destruct (dg_ensure_dom t (dg_ensure s G) Hd1) as [Hd2 Hn2].
  simpl. split; [by rewrite dom_alter_L|].
  split; [rewrite Hn2, Hn1; set_solver|].
  intros a b. unfold arc_data at 1. simpl.
  rewrite alter_insert_arc.
  - fold (arc_data (dg_ensure t (dg_ensure s G)) a b).
    rewrite !dg_ensure_arc.
    case_bool_decide as Hc; split; try tauto.
    intros _. by eexists.
  - apply elem_of_dom. rewrite Hd2, Hn2, Hn1. set_solver.
Qed.

Lemma for_records_cons rec recs G :
  for_records (rec :: recs) G
  = match add_record G rec with
    | Ok G' => for_records recs G'
    | Raise e => Raise e
    end.
Proof. reflexivity. Qed.

Lemma for_records_spec recs G :
  dom (dg_succ G) = dom (dg_node G) ->
  (forall rec, rec ∈ recs -> is_Some (source rec) /\ is_Some (target rec)) ->
  exists G',
    for_records recs G = Ok G'
    /\ (forall a, a ∈ dom (dg_node G')
                  <-> a ∈ dom (dg_node G)
                      \/ exists rec, rec ∈ recs
                                     /\ (source rec = Some a
                                         \/ target rec = Some a))
    /\ (forall a b, is_Some (arc_data G' a b)
                    <-> is_Some (arc_data G a b)
                        \/ exists rec, rec ∈ recs /\ source rec = Some a
                                       /\ target rec = Some b).
Proof.
  revert G; induction recs as [|rec recs IH]; intros G Hd Hall.
  - exists G. split; [done|].
    split; intros; (split; [by left|]);
      (intros [? | (r & Hr & _)]; [done | by apply elem_of_nil in Hr]).
  - destruct (Hall rec) as [[s Hs] [t Ht]]; [apply elem_of_cons; by left|].
    destruct rec as [so ty to]. simpl in Hs, Ht. subst so to.
    destruct (add_record_spec G s ty t Hd) as (G1 & H1 & Hd1 & Hn1 & Ha1).
    destruct (IH G1 Hd1) as (G' & H' & Hn' & Ha').
    { intros r Hr. apply Hall, elem_of_cons. by right. }
    exists G'. rewrite for_records_cons, H1. split; [done|]. split.
    + intros a. rewrite Hn', Hn1. split.
      * intros [Hin | (r & Hr & Hst)].
        -- apply elem_of_union in Hin as [Hin | Hin]; [|by left].
           right. exists (Record_ (Some s) ty (Some t)).
           split; [apply elem_of_cons; by left|]. simpl.
           apply elem_of_union in Hin as [Hin | Hin];
             apply elem_of_singleton in Hin as ->; auto.
        -- right. exists r. split; [apply elem_of_cons; by right | done].
      * intros [Hin | (r & Hr & Hst)].
        -- left. set_solver.
        -- apply elem_of_cons in Hr as [-> | Hr].
           ++ left. simpl in Hst. destruct Hst as [[= ->] | [= ->]]; set_solver.
           ++ right. by exists r.
    + intros a b. rewrite Ha', Ha1. split.
      * intros [[H | [-> ->]] | (r & Hr & Hst)].
        -- by left.
        -- right. exists (Record_ (Some s) ty (Some t)).
           split; [apply elem_of_cons; by left | done].
        -- right. exists r. split; [apply elem_of_cons; by right | done].
      * intros [H | (r & Hr & Hs' & Ht')]; [by left; left|].
        apply elem_of_cons in Hr as [-> | Hr].
        -- left. right. simpl in Hs', Ht'. by injection Hs' as ->;
             injection Ht' as ->.
        -- right. by exists r.
Qed.

(** X22: on a store filled by upserts, [visualize] builds its graph without
    raising; the graph has an edge from a name to a name exactly when some
    stored triple has them as head and tail, so relations of different
    types between the same two entities show as one edge; its nodes are
    the stored entities. *)
Theorem visualize_draws_the_stored_pairs (ts : list triplet) :
  exists G,
    visualize (store_all ts empty_store) = Ok G
    /\ (forall h t, has_arc G h t = true <-> exists ty, Triplet h ty t ∈ ts)
    /\ dom (dg_node G) = names_of ts.
Proof.
  destruct (for_records_spec (match_relations (store_all ts empty_store))
              empty_digraph) as (G & HG & Hn & Ha).
  - done.
  - intros rec Hrec. apply records_of_store in Hrec as (s & ty & t & -> & _).
    split; by eexists.
  - exists G. split; [exact HG|]. split.
    + intros h t. rewrite has_arc_data, bool_decide_eq_true, Ha. split.
      * intros [[d Hd] | (rec & Hrec & Hs & Ht)].
        { unfold arc_data in Hd. simpl in Hd. by rewrite lookup_empty in Hd. }
        apply records_of_store in Hrec as (s & ty & t' & -> & Hin).
        simpl in Hs, Ht. injection Hs as ->. injection Ht as ->. by exists ty.
      * intros (ty & Hin). right. exists (Record_ (Some h) (Some ty) (Some t)).
        split; [|done]. apply records_of_store. by exists h, ty, t.
    + apply set_eq. intros a. rewrite Hn. unfold names_of.
      rewrite elem_of_list_to_set, list_elem_of_In, in_flat_map. split.
      * intros [Hin | (rec & Hrec & Hst)]; [set_solver|].
        apply records_of_store in Hrec as (s & ty & t & -> & Hin).
        exists (Triplet s ty t). split; [by apply list_elem_of_In|].
        simpl in *. destruct Hst as [[= ->] | [= ->]]; auto.
      * intros (tr & Hin & Hht). right. destruct tr as [h ty t].
        exists (Record_ (Some h) (Some ty) (Some t)). split.
        -- apply records_of_store. exists h, ty, t.
           split; [done | by apply list_elem_of_In].
        -- simpl in *. destruct Hht as [<- | [<- | []]]; auto.
Qed.

End VizFacts.
